(** * Image compressor: the size policy and the quality search

    A shallow embedding of [compress_image] from [app.py].  Python floats are
    IEEE-754 binary64 numbers, here Rocq's primitive floats; Python integers
    are [Z].  The JPEG encoder ([img.save] into a [BytesIO]) is a capability
    that may raise; every invocation is recorded in a log of the qualities it
    was called with. *)

From Stdlib Require Import ZArith List Lia Bool String Floats.
From Equations Require Import Equations.
Import ListNotations.

Set Warnings "-inexact-float".
Local Open Scope Z_scope.

(** ** Python numbers *)

(** [float(n)] for a Python integer: the correctly rounded binary64 value.
    For a length [n], [n / 1024] in Python is the correctly rounded
    quotient, which is [float(n) / 1024]: dividing by a power of two is
    exact. *)
Definition float_of_Z (n : Z) : float :=
  SF2Prim (binary_normalize prec emax n 0 false).

(** ** Byte buffers

    What the function needs from the value of [output.getvalue()]: its size
    in KB ([len(b) / 1024]) and its truth value ([not b] holds of an empty
    buffer). *)
Class Buffer (B : Type) : Type := {
  size_kb : B -> float;
  truthy : B -> bool
}.

Definition bytes : Type := list Byte.byte.

#[export] Instance bytes_buffer : Buffer bytes := {
  size_kb b := (float_of_Z (Z.of_nat (List.length b)) / 1024)%float;
  truthy b := negb (Nat.eqb (List.length b) 0)
}.

(** ** The effects of the function: encoder calls and exceptions *)

Section Effects.
Variable exn : Type.

(** A computation takes the log of encoder calls made so far and returns
    the extended log with either an exception or a value. *)
Definition M (A : Type) : Type := list Z -> list Z * (exn + A).

Definition ret {A} (a : A) : M A := fun log => (log, inr a).

Definition bind {A B} (m : M A) (k : A -> M B) : M B :=
  fun log =>
    match m log with
    | (log', inl e) => (log', inl e)
    | (log', inr a) => k a log'
    end.
End Effects.

Arguments ret {exn A} a.
Arguments bind {exn A B} m k.

Notation "x <- m ;; k" := (bind m (fun x => k))
  (at level 61, m at next level, right associativity).

(** A value together with the equation that it is the value of [a]. *)
Definition inspect {A} (a : A) : {b : A | a = b} := exist _ a eq_refl.

(** ** Size policy (lines 40-48) *)

Definition compute_target (original_size_kb : float) : float :=
  if (original_size_kb <=? 50)%float then (original_size_kb * 1.0)%float
  else if (original_size_kb <=? 100)%float then (original_size_kb * 0.6)%float
  else if (original_size_kb <=? 500)%float then (original_size_kb * 0.2)%float
  else (original_size_kb * 0.1)%float.

(** ** Quality search (lines 50-88) *)

Section Search.
Context {exn B : Type} `{Buffer B}.

(** [img.save(output, format='JPEG', quality=q, optimize=True,
    progressive=True)] followed by [output.getvalue()], for the image at
    hand. *)
Variable encode : Z -> exn + B.

Definition save (quality : Z) : M exn B :=
  fun log => (log ++ [quality], encode quality).

(** The local variables the loop reads and writes. *)
Record locals : Type := {
  min_quality : Z;
  max_quality : Z;
  best_quality : Z;
  best_output : option B;
  best_size : float
}.

Definition initial : locals :=
  {| min_quality := 20;
     max_quality := 85;
     best_quality := 85;
     best_output := None;
     best_size := infinity |}.

Variable target_size_kb : float.

(** One iteration of the [while] loop (lines 58-76). *)
Definition loop_body (s : locals) : M exn locals :=
  let quality := (min_quality s + max_quality s) / 2 in
  output <- save quality ;;
  let current_size := size_kb output in
  if (current_size <=? target_size_kb)%float then
    let s' :=
      if (best_size s * 0.95 <? current_size)%float then
        {| min_quality := min_quality s;
           max_quality := max_quality s;
           best_quality := quality;
           best_output := Some output;
           best_size := current_size |}
      else s in
    ret {| min_quality := quality + 1;
           max_quality := max_quality s';
           best_quality := best_quality s';
           best_output := best_output s';
           best_size := best_size s' |}
  else
    ret {| min_quality := min_quality s;
           max_quality := quality - 1;
           best_quality := best_quality s;
           best_output := best_output s;
           best_size := best_size s |}.

(** The number of qualities still in the interval. *)
Definition width (s : locals) : nat :=
  Z.to_nat (max_quality s + 1 - min_quality s).

(** The loop [while min_quality <= max_quality] (line 57). *)
Equations? while_loop (s : locals) (log : list Z) : list Z * (exn + locals)
  by wf (width s) lt :=
  while_loop s log with Z_le_dec (min_quality s) (max_quality s) => {
    | right _ => (log, inr s)
    | left Hle with inspect (loop_body s log) => {
        | exist _ (log', inl e) _ => (log', inl e)
        | exist _ (log', inr s') Heq => while_loop s' log' } }.
Proof.
  revert Heq. unfold loop_body, bind, save, ret, width.
  destruct (encode _) as [e | output]; [discriminate |].
  assert (Hmid : min_quality s <= (min_quality s + max_quality s) / 2
                 <= max_quality s).
  { split; [apply Z.div_le_lower_bound | apply Z.div_le_upper_bound]; lia. }
  destruct (size_kb output <=? target_size_kb)%float;
    [destruct (best_size s * 0.95 <? size_kb output)%float |];
    intros [= _ <-]; cbn; lia.
Qed.

(** Lines 50-88: the loop, then the encode at [min_quality] when
    [best_output] is [None] or empty. *)
Definition search : M exn B :=
  s <- while_loop initial ;;
  match best_output s with
  | Some b => if truthy b then ret b else save (min_quality s)
  | None => save (min_quality s)
  end.
End Search.

Arguments locals B : clear implicits.

(** ** The whole function (lines 33-88) *)

(** What the function uses of the imaging library, for images of type
    [Image]: the colour mode, conversion to another mode, copying (both
    taken to return), and JPEG encoding at a quality with [optimize] and
    [progressive] set, which returns the bytes written or raises. *)
Record Pillow (exn Image : Type) : Type := {
  mode : Image -> string;
  convert : Image -> string -> Image;
  copy : Image -> Image;
  save_jpeg : Image -> Z -> exn + bytes
}.

Arguments mode {exn Image} p image.
Arguments convert {exn Image} p image new_mode.
Arguments copy {exn Image} p image.
Arguments save_jpeg {exn Image} p image quality.

Definition compress_image {exn Image} (pil : Pillow exn Image)
    (image : Image) (original_size_kb : float) : M exn bytes :=
  let img :=
    if existsb (String.eqb (mode pil image)) ["RGBA"; "P"]%string
    then convert pil image "RGB"
    else copy pil image in
  let target_size_kb := compute_target original_size_kb in
  search (save_jpeg pil img) target_size_kb.

(** The call of the encoder at [q] returns a buffer. *)
Definition returns_at {exn B} (encode : Z -> exn + B) (q : Z) : Prop :=
  exists b, encode q = inr b.

(** The encode at [q] returns bytes that fit the target. *)
Definition fits {exn B} `{Buffer B} (encode : Z -> exn + B)
    (target_size_kb : float) (q : Z) : Prop :=
  exists b, encode q = inr b /\ (size_kb b <=? target_size_kb)%float = true.

(** ** Encoders for concrete runs *)

(** A buffer of [n] zero bytes. *)
Definition zeros (n : nat) : bytes := repeat Byte.x00 n.

(** An imaging library for runs: an image is its colour mode, and encoding
    at quality [q] writes [length_at q] bytes and never raises. *)
Definition fake_pillow (length_at : Z -> nat) : Pillow string string :=
  {| mode := fun image => image;
     convert := fun _ new_mode => new_mode;
     copy := fun image => image;
     save_jpeg := fun _ quality => inr (zeros (length_at quality)) |}.

(** An encoder that writes [n] bytes at every quality. *)
Definition constant_encode (n : nat) (quality : Z) : string + bytes :=
  inr (zeros n).

(** An encoder that writes 1 KB up to quality 60 and 4 KB above. *)
Definition step_encode (quality : Z) : string + bytes :=
  inr (zeros (if quality <=? 60 then 1024 else 4096)).

(** The encoder of the 600 KB scenario: its output at quality [q] is the
    quality itself, of size [q * 1.2] KB. *)
Definition linear_output : Buffer Z :=
  {| size_kb := fun q => (float_of_Z q * 1.2)%float;
     truthy := fun _ => true |}.

Definition linear_encode (quality : Z) : string + Z := inr quality.

(** An encoder that agrees with [linear_encode] from quality 0 on and
    raises below. *)
Definition guarded_encode (quality : Z) : string + Z :=
  if quality <? 0 then inl "quality out of range"%string else inr quality.

(** ** The page (lines 7-31 and 90-182)

    [main] runs once per interaction: the widgets return what the user
    chose, and every [st] call renders something.  The run is modelled as
    the list of what it renders, in order; fixed texts of widgets are left
    out, values computed by the run are kept. *)

(** An uploaded file: its name, its size in bytes and its content. *)
Record UploadedFile : Type := {
  file_name : string;
  file_size : Z;
  file_data : bytes
}.

(** The imaging library with [Image.open], which reads an image from bytes
    or raises. *)
Record Viewer (exn Image : Type) : Type := {
  pillow : Pillow exn Image;
  image_open : bytes -> exn + Image
}.

Arguments pillow {exn Image} v.
Arguments image_open {exn Image} v data.

Section App.
Context {exn Image : Type}.

(** The exceptions of a run: those of the imaging library and the two
    built-in ones the code can raise itself. *)
Inductive py_exn : Type :=
| ZeroDivisionError
| StopIteration
| LibraryError (e : exn).

Inductive event : Type :=
| PageConfig
| Style
| Title
| Version
| Radio
| FileUploader
| Button
| Subheader (text : string)
| Picture (image : Image) (caption : option string)
| PictureOfBytes (data : bytes)
| Write (original_size : float)
| Spinner (text : string)
| Encoded (quality : Z)
| Success (reduction original_size compressed_size : float)
| DownloadImage (data : bytes) (name : string)
| DownloadZip (entries : list (string * bytes)) (name : string) (count : nat)
| Columns
| Error (text : string) (e : py_exn)
| Rule
| Footer.

(** A step of a run: it adds to what was rendered and returns or raises. *)
Definition UI (A : Type) : Type := list event -> list event * (py_exn + A).

Definition ui_ret {A} (a : A) : UI A := fun evs => (evs, inr a).

Definition ui_bind {A C} (m : UI A) (k : A -> UI C) : UI C :=
  fun evs =>
    match m evs with
    | (evs', inl e) => (evs', inl e)
    | (evs', inr a) => k a evs'
    end.

Definition emit (ev : event) : UI unit := fun evs => (evs ++ [ev], inr tt).

(** A call that renders nothing. *)
Definition call {A} (r : py_exn + A) : UI A := fun evs => (evs, r).

(** A call of the imaging library. *)
Definition library {A} (r : exn + A) : UI A :=
  call match r with inl e => inl (LibraryError e) | inr a => inr a end.

(** A call of [compress_image]: its encoder calls are rendered as
    [Encoded] events. *)
Definition compressing (m : M exn bytes) : UI bytes :=
  fun evs =>
    match m [] with
    | (calls, r) => library r (evs ++ map Encoded calls)
    end.

(** [try: body  except Exception as e: handler(e)]. *)
Definition try_except (body : UI unit) (handler : py_exn -> UI unit)
  : UI unit :=
  fun evs =>
    match body evs with
    | (evs', inl e) => handler e evs'
    | (evs', inr tt) => (evs', inr tt)
    end.
End App.

Arguments py_exn exn : clear implicits.
Arguments event exn Image : clear implicits.
Arguments UI exn Image A : clear implicits.

Notation "x <~ m ;; k" := (ui_bind m (fun x => k))
  (at level 61, m at next level, right associativity).
Notation "m ;;; k" := (ui_bind m (fun _ => k))
  (at level 61, right associativity).

Section Page.
Context {exn Image : Type}.
Variable vw : Viewer exn Image.

(** Lines 7-31. *)
Definition setup_page : UI exn Image unit :=
  emit PageConfig ;;; emit Style.

(** [((original_size - compressed_size) / original_size) * 100] (line 118):
    dividing a float by zero raises. *)
Definition reduction_percent (original_size compressed_size : float)
  : py_exn exn + float :=
  if (original_size =? 0)%float then inl ZeroDivisionError
  else inr (((original_size - compressed_size) / original_size) * 100)%float.

(** Lines 110-130: what the button of the single mode does. *)
Definition compress_single (uploaded_file : UploadedFile) (image : Image)
    (original_size : float) (timestamp : string) : UI exn Image unit :=
  try_except
    (emit (Spinner "Compressing image...") ;;;
     compressed_bytes <~
       compressing (compress_image (pillow vw) image original_size) ;;
     emit (Subheader "Compressed Result") ;;;
     emit (PictureOfBytes compressed_bytes) ;;;
     let compressed_size := size_kb compressed_bytes in
     reduction <~ call (reduction_percent original_size compressed_size) ;;
     emit (Success reduction original_size compressed_size) ;;;
     emit (DownloadImage compressed_bytes
             (timestamp ++ "_" ++ file_name uploaded_file)))
    (fun e => emit (Error "Error during compression: " e)).

(** Lines 143-148: the loop over the uploaded files. *)
Fixpoint compress_all (uploaded_files : list UploadedFile)
    (compressed_images : list (string * bytes))
  : UI exn Image (list (string * bytes)) :=
  match uploaded_files with
  | [] => ui_ret compressed_images
  | uploaded_file :: rest =>
      image <~ library (image_open vw (file_data uploaded_file)) ;;
      let original_size :=
        (float_of_Z (file_size uploaded_file) / 1024)%float in
      compressed <~
        compressing (compress_image (pillow vw) image original_size) ;;
      compress_all rest
        (compressed_images ++ [(file_name uploaded_file, compressed)])
  end.

(** Lines 150-153: the entries written to the archive. *)
Definition zip_entries (compressed_images : list (string * bytes))
  : list (string * bytes) :=
  map (fun entry => ("compressed_" ++ fst entry, snd entry)%string)
    compressed_images.

(** [next(f for f in uploaded_files if f.name == filename)] (line 167). *)
Definition next_file (uploaded_files : list UploadedFile) (filename : string)
  : py_exn exn + UploadedFile :=
  match find (fun f => String.eqb (file_name f) filename) uploaded_files with
  | Some f => inr f
  | None => inl StopIteration
  end.

(** Lines 164-170: the previews. *)
Fixpoint preview (uploaded_files : list UploadedFile)
    (compressed_images : list (string * bytes)) : UI exn Image unit :=
  match compressed_images with
  | [] => ui_ret tt
  | (filename, compressed_data) :: rest =>
      emit Columns ;;;
      original <~ call (next_file uploaded_files filename) ;;
      shown <~ library (image_open vw (file_data original)) ;;
      emit (Picture shown (Some ("Original: " ++ filename)%string)) ;;;
      decoded <~ library (image_open vw compressed_data) ;;
      emit (Picture decoded (Some ("Compressed: " ++ filename)%string)) ;;;
      preview uploaded_files rest
  end.

(** Lines 141-172: what the button of the multiple mode does. *)
Definition compress_multiple (uploaded_files : list UploadedFile)
    (timestamp : string) : UI exn Image unit :=
  try_except
    (emit (Spinner "Processing images...") ;;;
     compressed_images <~ compress_all uploaded_files [] ;;
     emit (DownloadZip (zip_entries compressed_images)
             (timestamp ++ ".zip") (List.length compressed_images)) ;;;
     emit (Subheader "Preview") ;;;
     preview uploaded_files compressed_images)
    (fun e => emit (Error "Error processing images: " e)).

(** What the widgets return in a run: the mode chosen, the uploads of the
    two modes, whether the button was pressed, and the time as formatted
    by [strftime]. *)
Record Inputs : Type := {
  radio : string;
  single_upload : option UploadedFile;
  multiple_upload : list UploadedFile;
  button : bool;
  timestamp : string
}.

(** Lines 90-182. *)
Definition main (inp : Inputs) : UI exn Image unit :=
  setup_page ;;;
  emit Title ;;;
  emit Version ;;;
  emit Radio ;;;
  (if String.eqb (radio inp) "Single Image" then
     emit FileUploader ;;;
     match single_upload inp with
     | Some uploaded_file =>
         image <~ library (image_open vw (file_data uploaded_file)) ;;
         let original_size :=
           (float_of_Z (file_size uploaded_file) / 1024)%float in
         emit (Subheader "Original Image") ;;;
         emit (Picture image None) ;;;
         emit (Write original_size) ;;;
         emit Button ;;;
         if button inp
         then compress_single uploaded_file image original_size
                (timestamp inp)
         else ui_ret tt
     | None => ui_ret tt
     end
   else
     emit FileUploader ;;;
     match multiple_upload inp with
     | [] => ui_ret tt
     | uploaded_files =>
         emit Button ;;;
         if button inp
         then compress_multiple uploaded_files (timestamp inp)
         else ui_ret tt
     end) ;;;
  emit Rule ;;;
  emit Footer.
End Page.




Definition is_preview {exn Image} (ev : event exn Image) : bool :=
  match ev with Columns | Picture _ _ => true | _ => false end.

(** The size in KB that [main] computes for an uploaded file. *)
Definition upload_kb (f : UploadedFile) : float :=
  (float_of_Z (file_size f) / 1024)%float.

(** ** Uploads for concrete runs *)

(** An imaging library for runs: [Image.open] refuses empty data. *)
Definition fake_viewer (length_at : Z -> nat) : Viewer string string :=
  {| pillow := fake_pillow length_at;
     image_open := fun data =>
       match data with
       | [] => inl "cannot identify image file"%string
       | _ => inr "RGB"%string
       end |}.

Definition upload (name : string) (size : Z) (data : bytes) : UploadedFile :=
  {| file_name := name; file_size := size; file_data := data |}.

(** Uploads for runs: two images, a file that cannot be opened, and an
    image that has the name of the first. *)
Definition small_viewer : Viewer string string :=
  fake_viewer (fun q => Z.to_nat q).

Definition photo : UploadedFile := upload "photo.png" 2048 (zeros 3).

Definition scan : UploadedFile := upload "scan.jpg" 40 (zeros 2).

Definition broken : UploadedFile := upload "broken.png" 10 [].

Definition retake : UploadedFile := upload "photo.png" 1024 (zeros 5).

(** ** Proof automation *)

(** Evaluates the loop of a concrete run to the result [r]. *)
Ltac run_loop r :=
  match goal with
  | |- context [while_loop ?e ?t ?s ?l] =>
      let Hrun := fresh "Hrun" in
      assert (Hrun : while_loop e t s l = r) by (vm_compute; reflexivity);
      rewrite Hrun; clear Hrun
  end.

(** * Properties *)

(** ** Floating-point facts

    Comparisons and products of binary64 numbers, through their
    specification [SpecFloat]. *)

(** The comparison of mantissas is the comparison of positive numbers. *)
Lemma compare_cont_Eq p q :
  PosDef.Pos.compare_cont Eq p q = (p ?= q)%positive.
Proof. reflexivity. Qed.

(** Case analysis on every comparison of exponents and mantissas in the
    goal. *)
Ltac cmp_cases :=
  repeat (match goal with
  | |- context [Z.compare ?a ?b] => destruct (Z.compare_spec a b)
  | |- context [PosDef.Pos.compare_cont Eq ?a ?b] =>
      rewrite (compare_cont_Eq a b); destruct (Pos.compare_spec a b)
  end; cbn [CompOpp]; cbv iota).

(** Settles a fact about the order of three numbers by cases. *)
Ltac order_cases a b x :=
  unfold SFltb, SFleb, SFcompare;
  destruct a as [[] | [] | | [] ? ?], b as [[] | [] | | [] ? ?],
    x as [[] | [] | | [] ? ?];
  try discriminate; try reflexivity;
  cmp_cases;
  try discriminate; try reflexivity; intros; lia.

(** [a < x] and [b <= a] leave [x <= b] false. *)
Lemma SF_lt_le_false a b x :
  SFltb a x = true -> SFleb b a = true -> SFleb x b = false.
Proof. order_cases a b x. Qed.

(** [<=] is transitive. *)
Lemma SF_le_trans x a b :
  SFleb x a = true -> SFleb a b = true -> SFleb x b = true.
Proof. order_cases a b x. Qed.

(** Positive finite numbers are ordered by exponent, then by mantissa. *)
Lemma SFltb_finite_pos m1 e1 m2 e2 :
  e1 < e2 \/ (e1 = e2 /\ Zpos m1 < Zpos m2) ->
  SFltb (S754_finite false m1 e1) (S754_finite false m2 e2) = true.
Proof.
  unfold SFltb, SFcompare. cmp_cases; intros; try reflexivity; lia.
Qed.

(** On Python floats, [a < x] and [b <= a] leave [x <= b] false. *)
Lemma leb_above (a b x : float) :
  (a <? x)%float = true -> (b <=? a)%float = true -> (x <=? b)%float = false.
Proof. rewrite ltb_spec, !leb_spec. apply SF_lt_le_false. Qed.

(** [<=] on Python floats is transitive. *)
Lemma leb_trans (x a b : float) :
  (x <=? a)%float = true -> (a <=? b)%float = true -> (x <=? b)%float = true.
Proof. rewrite !leb_spec. apply SF_le_trans. Qed.

(** A number below another is at most it and differs from it. *)
Lemma ltb_leb_eqb (x y : float) :
  (x <? y)%float = true ->
  (x <=? y)%float = true /\ (x =? y)%float = false.
Proof.
  rewrite ltb_spec, leb_spec, eqb_spec. unfold SFltb, SFleb, SFeqb.
  destruct (SFcompare _ _) as [[] |]; try discriminate. auto.
Qed.

(** A number that is not NaN is at most itself and equals itself. *)
Lemma leb_eqb_refl (x : float) :
  (x <? infinity)%float = true ->
  (x <=? x)%float = true /\ (x =? x)%float = true.
Proof.
  rewrite ltb_spec, leb_spec, eqb_spec. unfold SFltb, SFleb, SFeqb, SFcompare.
  destruct (Prim2SF x) as [[] | [] | | [] m e]; try discriminate; auto;
    rewrite Z.compare_refl, compare_cont_Eq, Pos.compare_refl; auto.
Qed.

(** Nothing is greater than [float('inf') * 0.95], which is [inf]. *)
Lemma nothing_above_infinity (x : float) :
  (infinity * 0.95 <? x)%float = false.
Proof.
  replace (infinity * 0.95)%float with infinity by (vm_compute; reflexivity).
  rewrite ltb_spec.
  replace (Prim2SF infinity) with (S754_infinity false)
    by (vm_compute; reflexivity).
  destruct (Prim2SF x) as [s | s | | s m e]; try reflexivity; now destruct s.
Qed.

(** The only number above 0 that is not below infinity is infinity. *)
Lemma positive_not_finite (x : float) :
  (0 <? x)%float = true -> (x <? infinity)%float = false -> x = infinity.
Proof.
  rewrite !ltb_spec. intros Hpos Hinf. apply Prim2SF_inj.
  replace (Prim2SF infinity) with (S754_infinity false)
    by (vm_compute; reflexivity).
  replace (Prim2SF 0) with (S754_zero false) in Hpos
    by (vm_compute; reflexivity).
  destruct (Prim2SF x) as [[] | [] | | [] m e]; try discriminate; reflexivity.
Qed.

(** *** Multiplication by 1.0 is exact *)

(** Multiplying a mantissa by [2 ^ 52] adds 52 digits. *)
Lemma digits2_pos_shift52 (m : positive) :
  Zpos (digits2_pos (m * 4503599627370496)) = Zpos (digits2_pos m) + 52.
Proof.
  rewrite Pos.mul_comm. cbn [Pos.mul digits2_pos]. lia.
Qed.

(** Shifting [m * 2 ^ 52] right by 52 digits loses nothing. *)
Lemma shr_52_exact (m : positive) :
  iter_pos shr_1 52
    {| shr_m := Zpos (m * 4503599627370496);
       shr_r := false; shr_s := false |} =
  {| shr_m := Zpos m; shr_r := false; shr_s := false |}.
Proof.
  rewrite Pos.mul_comm. reflexivity.
Qed.

(** What a valid finite number says of its mantissa and exponent. *)
Lemma bounded_inv m e :
  bounded prec emax m e = true ->
  Z.max (Zpos (digits2_pos m) + e - 53) (-1074) = e /\ e <= 971.
Proof.
  unfold bounded, canonical_mantissa, fexp, SpecFloat.emin, prec, emax.
  intros Hb. apply andb_prop in Hb. destruct Hb as [Hc He].
  apply Z.eqb_eq in Hc. apply Z.leb_le in He. split; [exact Hc | exact He].
Qed.

(** The product with 1.0, which is [2 ^ 52 * 2 ^ -52], is the number. *)
Lemma SFmul_one_r (x : spec_float) :
  valid_binary x = true ->
  SF64mul x (S754_finite false 4503599627370496 (-52)) = x.
Proof.
  destruct x as [s | s | | s m e]; cbn [valid_binary]; intros Hv;
    try (cbn; now rewrite ?xorb_false_r).
  apply bounded_inv in Hv. destruct Hv as [Hc He].
  unfold SF64mul, SFmul, binary_round_aux, shr_fexp.
  rewrite xorb_false_r. unfold Zdigits2 at 1.
  rewrite digits2_pos_shift52.
  unfold fexp at 1, SpecFloat.emin, prec, emax.
  replace (Z.max (Zpos (digits2_pos m) + 52 + (e + -52) - 53) (3 - 1024 - 53)
           - (e + -52)) with 52 by lia.
  unfold shr at 1. cbn [shr_record_of_loc]. rewrite shr_52_exact.
  cbn [shr_m loc_of_shr_record round_nearest_even Zdigits2].
  unfold fexp, SpecFloat.emin.
  replace (Z.max (Zpos (digits2_pos m) + (e + -52 + 52) - 53) (3 - 1024 - 53)
           - (e + -52 + 52)) with 0 by lia.
  cbn [shr shr_m shr_record_of_loc].
  replace (e + -52 + 52) with e by lia.
  destruct (Z.leb_spec e (1024 - 53)); [reflexivity | lia].
Qed.

(** [x * 1.0] is [x], for every Python float. *)
Lemma mul_one_r (x : float) : (x * 1.0)%float = x.
Proof.
  apply Prim2SF_inj. rewrite mul_spec.
  replace (Prim2SF 1) with (S754_finite false 4503599627370496 (-52))
    by (vm_compute; reflexivity).
  apply SFmul_one_r, Prim2SF_valid.
Qed.

(** *** How a product of two normal numbers is rounded *)

(** A number of [d] binary digits lies in [2 ^ (d - 1), 2 ^ d). *)
Lemma digits2_pos_bounds (p : positive) :
  2 ^ (Zpos (digits2_pos p) - 1) <= Zpos p < 2 ^ Zpos (digits2_pos p).
Proof.
  induction p as [p IH | p IH |]; cbn [digits2_pos].
  1, 2: rewrite Pos2Z.inj_succ, Z.pow_succ_r by lia;
    replace (Z.succ (Zpos (digits2_pos p)) - 1)
      with (Z.succ (Zpos (digits2_pos p) - 1)) by lia;
    rewrite Z.pow_succ_r by lia; lia.
  cbn. lia.
Qed.

(** The number of digits of a number of [2 ^ (k - 1), 2 ^ k) is [k]. *)
Lemma digits2_pos_unique (p : positive) (k : Z) :
  2 ^ (k - 1) <= Zpos p < 2 ^ k -> Zpos (digits2_pos p) = k.
Proof.
  intros [Hlo Hhi]. pose proof (digits2_pos_bounds p) as [Hlo' Hhi'].
  assert (0 < k).
  { destruct (Z.ltb_spec 0 k); [assumption |].
    destruct (Z.eq_dec k 0) as [-> | ]; [cbn in Hhi; lia |].
    rewrite Z.pow_neg_r in Hhi by lia. lia. }
  assert (k - 1 < Zpos (digits2_pos p)).
  { apply (Z.pow_lt_mono_r_iff 2); lia. }
  assert (Zpos (digits2_pos p) - 1 < k).
  { apply (Z.pow_lt_mono_r_iff 2); lia. }
  lia.
Qed.

(** One shift to the right halves the mantissa and keeps the digit lost as
    the round bit. *)
Lemma shr_1_m (r : shr_record) :
  0 <= shr_m r ->
  shr_m (shr_1 r) = shr_m r / 2 /\
  2 * shr_m (shr_1 r) + Z.b2z (shr_r (shr_1 r)) = shr_m r.
Proof.
  destruct r as [m r s]. cbn [shr_m]. intros Hm.
  destruct m as [| [p | p |] | p]; cbn [shr_1 shr_m shr_r Z.b2z]; try lia;
    (split; [| lia]).
  - reflexivity.
  - apply (Z.div_unique _ _ _ 1); lia.
  - apply (Z.div_unique _ _ _ 0); lia.
  - reflexivity.
Qed.

(** A bit is 0 or 1. *)
Lemma b2z_nonneg (b : bool) : 0 <= Z.b2z b.
Proof. destruct b; cbn; lia. Qed.

(** [n] shifts to the right divide the mantissa by [2 ^ n]; when the
    round bit is set, at least half a unit was lost. *)
Lemma iter_shr_1 (n : positive) :
  forall r : shr_record, 0 <= shr_m r ->
  let r' := iter_pos shr_1 n r in
  shr_m r' = shr_m r / 2 ^ Zpos n /\
  2 ^ Zpos n * shr_m r' + 2 ^ (Zpos n - 1) * Z.b2z (shr_r r') <= shr_m r.
Proof.
  induction n as [n IH | n IH |]; intros r Hr; cbn [iter_pos]; cbv zeta.
  - destruct (shr_1_m r Hr) as [H1 H1'].
    assert (H1p : 0 <= shr_m (shr_1 r)) by (rewrite H1; apply Z.div_pos; lia).
    destruct (IH _ H1p) as [H2 H2'].
    assert (H2p : 0 <= shr_m (iter_pos shr_1 n (shr_1 r))).
    { rewrite H2. apply Z.div_pos; [lia | apply Z.pow_pos_nonneg; lia]. }
    destruct (IH _ H2p) as [H3 H3'].
    assert (Hp : 0 < 2 ^ Zpos n) by (apply Z.pow_pos_nonneg; lia).
    assert (Hq : 0 <= 2 ^ (Zpos n - 1)) by (apply Z.pow_nonneg; lia).
    rewrite (Pos2Z.inj_xI n).
    replace (2 * Zpos n + 1) with (1 + Zpos n + Zpos n) by lia.
    replace (1 + Zpos n + Zpos n - 1) with (1 + Zpos n + (Zpos n - 1)) by lia.
    rewrite !Z.pow_add_r by lia. change (2 ^ 1) with 2.
    split.
    + rewrite H3, H2, H1, !Z.div_div by lia. f_equal. lia.
    + set (b3 := Z.b2z (shr_r (iter_pos shr_1 n
                                  (iter_pos shr_1 n (shr_1 r))))) in *.
      set (b2 := Z.b2z (shr_r (iter_pos shr_1 n (shr_1 r)))) in *.
      assert (0 <= b2) by apply b2z_nonneg.
      assert (0 <= Z.b2z (shr_r (shr_1 r))) by apply b2z_nonneg.
      nia.
  - assert (Hp : 0 < 2 ^ Zpos n) by (apply Z.pow_pos_nonneg; lia).
    assert (Hq : 0 <= 2 ^ (Zpos n - 1)) by (apply Z.pow_nonneg; lia).
    destruct (IH _ Hr) as [H2 H2'].
    assert (H2p : 0 <= shr_m (iter_pos shr_1 n r)).
    { rewrite H2. apply Z.div_pos; lia. }
    destruct (IH _ H2p) as [H3 H3'].
    rewrite (Pos2Z.inj_xO n).
    replace (2 * Zpos n) with (Zpos n + Zpos n) by lia.
    replace (Zpos n + Zpos n - 1) with (Zpos n + (Zpos n - 1)) by lia.
    rewrite !Z.pow_add_r by lia.
    split.
    + rewrite H3, H2, !Z.div_div by lia. reflexivity.
    + set (b3 := Z.b2z (shr_r (iter_pos shr_1 n (iter_pos shr_1 n r)))) in *.
      set (b2 := Z.b2z (shr_r (iter_pos shr_1 n r))) in *.
      assert (0 <= b2) by apply b2z_nonneg.
      nia.
  - destruct (shr_1_m r Hr) as [H1 H1']. change (2 ^ 1) with 2.
    change (2 ^ (1 - 1)) with 1. lia.
Qed.

(** Rounding to nearest adds at most the round bit. *)
Lemma round_nearest_even_bounds (r : shr_record) :
  shr_m r <= round_nearest_even (shr_m r) (loc_of_shr_record r)
          <= shr_m r + Z.b2z (shr_r r).
Proof.
  destruct r as [m [] []];
    cbn [shr_m shr_r loc_of_shr_record round_nearest_even Z.b2z];
    try destruct (Z.even m); lia.
Qed.

(** The product of two normal numbers whose exact product is not
    subnormal: the 105 or 106 digits of the product of the mantissas are
    shifted right by [n] = 52 or 53 and rounded to a mantissa [mr] at most
    half a unit above the exact one; a carry to [2 ^ 53] renormalises to
    [2 ^ 52] with the exponent one higher; an exponent above 971 gives
    infinity. *)
Lemma SFmul_normal sx mx ex sc mc ec :
  Zpos (digits2_pos mx) = 53 -> Zpos (digits2_pos mc) = 53 ->
  -1074 <= ex + ec + 52 ->
  exists n mr er,
    (n = 52 \/ n = 53) /\
    2 ^ (n + 52) <= Zpos mx * Zpos mc < 2 ^ (n + 53) /\
    SF64mul (S754_finite sx mx ex) (S754_finite sc mc ec) =
      (if er <=? 971 then S754_finite (xorb sx sc) mr er
       else S754_infinity (xorb sx sc)) /\
    ((er = ex + ec + n /\ 2 ^ 52 <= Zpos mr < 2 ^ 53 /\
      2 ^ n * Zpos mr <= Zpos mx * Zpos mc + 2 ^ (n - 1)) \/
     (er = ex + ec + n + 1 /\ Zpos mr = 2 ^ 52 /\
      2 ^ n * 2 ^ 53 <= Zpos mx * Zpos mc + 2 ^ (n - 1))).
Proof.
  intros Hdx Hdc He.
  pose proof (digits2_pos_bounds mx) as Hbx. rewrite Hdx in Hbx.
  pose proof (digits2_pos_bounds mc) as Hbc. rewrite Hdc in Hbc.
  pose proof (digits2_pos_bounds (mx * mc)) as Hbp.
  rewrite Pos2Z.inj_mul in Hbp.
  set (d := Zpos (digits2_pos (mx * mc))) in *.
  assert (Hd : d = 105 \/ d = 106).
  { assert (d - 1 < 106).
    { apply (Z.pow_lt_mono_r_iff 2); [lia | lia |].
      change (2 ^ 106) with (2 ^ 53 * 2 ^ 53).
      change (2 ^ (53 - 1)) with (2 ^ 52) in *. nia. }
    assert (104 < d).
    { apply (Z.pow_lt_mono_r_iff 2); [lia | unfold d; lia |].
      change (2 ^ 104) with (2 ^ 52 * 2 ^ 52).
      change (2 ^ (53 - 1)) with (2 ^ 52) in *. nia. }
    lia. }
  exists (d - 53).
  unfold SF64mul, SFmul, binary_round_aux, shr_fexp.
  cbn [Zdigits2]. fold d.
  unfold fexp at 1, SpecFloat.emin, prec, emax.
  replace (Z.max (d + (ex + ec) - 53) (3 - 1024 - 53) - (ex + ec))
    with (d - 53) by lia.
  cbn [shr_record_of_loc].
  set (r0 := {| shr_m := Zpos (mx * mc); shr_r := false; shr_s := false |}).
  assert (Hshr : exists p, d - 53 = Zpos p /\
            shr r0 (ex + ec) (d - 53)
            = (iter_pos shr_1 p r0, ex + ec + (d - 53))).
  { destruct Hd as [-> | ->]; eexists; split; reflexivity. }
  destruct Hshr as (p & Hp & ->).
  pose proof (iter_shr_1 p r0 ltac:(cbn; lia)) as [Hm Hr].
  cbv zeta in Hm, Hr.
  set (r1 := iter_pos shr_1 p r0) in *.
  pose proof (round_nearest_even_bounds r1) as Hrne.
  pose proof (b2z_nonneg (shr_r r1)) as Hb0.
  assert (Hb1 : Z.b2z (shr_r r1) <= 1) by (destruct (shr_r r1); cbn; lia).
  set (m2 := round_nearest_even (shr_m r1) (loc_of_shr_record r1)) in *.
  cbn [shr_m] in Hm, Hr. unfold r0 in Hm, Hr. cbn [shr_m] in Hm, Hr.
  rewrite Pos2Z.inj_mul in Hm, Hr. rewrite <- Hp in Hm, Hr.
  change (2 ^ (53 - 1)) with (2 ^ 52) in *.
  assert (Hpow : 2 ^ (d - 53 + 52) <= Zpos mx * Zpos mc < 2 ^ (d - 53 + 53)).
  { replace (d - 53 + 52) with (d - 1) by lia.
    replace (d - 53 + 53) with d by lia. exact Hbp. }
  assert (Hn : 0 < 2 ^ (d - 53)) by (apply Z.pow_pos_nonneg; lia).
  assert (Hm1 : 2 ^ 52 <= shr_m r1 < 2 ^ 53).
  { rewrite Hm. rewrite !Z.pow_add_r in Hpow by lia. split.
    - apply Z.div_le_lower_bound; lia.
    - apply Z.div_lt_upper_bound; lia. }
  assert (Hn1 : 2 ^ (d - 53) = 2 * 2 ^ (d - 53 - 1)).
  { rewrite <- Z.pow_succ_r by lia. f_equal. lia. }
  assert (Hup : 2 ^ (d - 53) * m2
                <= Zpos mx * Zpos mc + 2 ^ (d - 53 - 1)) by nia.
  clearbody m2 r1. clear Hm Hr r0.
  destruct m2 as [| q | q]; [lia | | lia].
  destruct (Z.eq_dec (Zpos q) (2 ^ 53)) as [Hq | Hq].
  - (* the rounded mantissa carries into the next binade *)
    assert (q = 9007199254740992%positive) by (apply Pos2Z.inj; exact Hq).
    subst q.
    exists 4503599627370496%positive, (ex + ec + (d - 53) + 1).
    split; [lia |]. split; [exact Hpow |]. split; [| right; lia].
    cbn [Zdigits2 digits2_pos Pos.succ].
    unfold fexp, SpecFloat.emin.
    replace (Z.max (54 + (ex + ec + (d - 53)) - 53) (3 - 1024 - 53)
             - (ex + ec + (d - 53))) with 1 by lia.
    reflexivity.
  - exists q, (ex + ec + (d - 53)).
    split; [lia |]. split; [exact Hpow |]. split; [| left; lia].
    cbn [Zdigits2].
    rewrite (digits2_pos_unique q 53)
      by (change (2 ^ (53 - 1)) with (2 ^ 52); lia).
    unfold fexp, SpecFloat.emin.
    replace (Z.max (53 + (ex + ec + (d - 53)) - 53) (3 - 1024 - 53)
             - (ex + ec + (d - 53))) with 0 by lia.
    reflexivity.
Qed.

(** *** A number above 50 times 0.6, 0.2 or 0.1 is below the number *)

(** A finite number above 50 is positive and normal, with an exponent of
    at least -47. *)
Lemma SF_above_50 (x : spec_float) :
  valid_binary x = true ->
  SFltb x (S754_infinity false) = true ->
  SFleb x (S754_finite false 7036874417766400 (-47)) = false ->
  exists m e, x = S754_finite false m e /\
    Zpos (digits2_pos m) = 53 /\ -47 <= e <= 971.
Proof.
  destruct x as [[] | [] | | [] m e]; try discriminate.
  cbn [valid_binary]. intros Hv _ Hgt.
  apply bounded_inv in Hv. destruct Hv as [Hc He].
  exists m, e. split; [reflexivity |].
  revert Hgt. unfold SFleb, SFcompare.
  cmp_cases; try discriminate; intros _; lia.
Qed.

(** Such a number times 0.6, 0.2 or 0.1 (their binary64 values) rounds to
    a number below it. *)
Lemma SFmul_below (m : positive) (e : Z) (c : spec_float) :
  Zpos (digits2_pos m) = 53 -> -47 <= e <= 971 ->
  c = S754_finite false 5404319552844595 (-53) \/
  c = S754_finite false 7205759403792794 (-55) \/
  c = S754_finite false 7205759403792794 (-56) ->
  SFltb (SF64mul (S754_finite false m e) c) (S754_finite false m e) = true.
Proof.
  intros Hd He Hc.
  pose proof (digits2_pos_bounds m) as Hm. rewrite Hd in Hm.
  change (2 ^ (53 - 1)) with 4503599627370496 in Hm.
  change (2 ^ 53) with 9007199254740992 in Hm.
  destruct Hc as [-> | [-> | ->]];
    (edestruct SFmul_normal as (n & mr & er & Hn & _ & -> & Hr);
     [exact Hd | reflexivity | lia |]);
    (destruct Hn as [-> | ->];
     change (2 ^ 52) with 4503599627370496 in Hr;
     change (2 ^ 53) with 9007199254740992 in Hr;
     change (2 ^ (52 - 1)) with 2251799813685248 in Hr;
     change (2 ^ (53 - 1)) with 4503599627370496 in Hr;
     cbn [xorb];
     (destruct (Z.leb_spec er 971); [apply SFltb_finite_pos |]); lia).
Qed.

(** The reductions of the three upper tiers make a finite size above 50
    strictly smaller. *)
Lemma mul_below (x : float) :
  (x <? infinity)%float = true -> (x <=? 50)%float = false ->
  (x * 0.6 <? x)%float = true /\ (x * 0.2 <? x)%float = true /\
  (x * 0.1 <? x)%float = true.
Proof.
  rewrite !ltb_spec, leb_spec, !mul_spec.
  replace (Prim2SF infinity) with (S754_infinity false)
    by (vm_compute; reflexivity).
  replace (Prim2SF 50) with (S754_finite false 7036874417766400 (-47))
    by (vm_compute; reflexivity).
  replace (Prim2SF 0.6) with (S754_finite false 5404319552844595 (-53))
    by (vm_compute; reflexivity).
  replace (Prim2SF 0.2) with (S754_finite false 7205759403792794 (-55))
    by (vm_compute; reflexivity).
  replace (Prim2SF 0.1) with (S754_finite false 7205759403792794 (-56))
    by (vm_compute; reflexivity).
  intros Hfin Hgt.
  destruct (SF_above_50 _ (Prim2SF_valid x) Hfin Hgt)
    as (m & e & -> & Hd & He).
  repeat split; apply SFmul_below; auto.
Qed.

(** ** The size policy *)

(** C6.  The four tiers: up to 50 KB the target is the original size
    (factor 1.0), above 50 and up to 100 the factor is 0.6, above 100 and up
    to 500 it is 0.2, above 500 it is 0.1; and the targets of 50, 100 and
    500 KB are 50, 60 and 100 KB. *)
Theorem compute_target_tiers :
  (forall x : float, (x <=? 50)%float = true ->
     compute_target x = (x * 1.0)%float /\ compute_target x = x) /\
  (forall x : float, (50 <? x)%float = true -> (x <=? 100)%float = true ->
     compute_target x = (x * 0.6)%float) /\
  (forall x : float, (100 <? x)%float = true -> (x <=? 500)%float = true ->
     compute_target x = (x * 0.2)%float) /\
  (forall x : float, (500 <? x)%float = true ->
     compute_target x = (x * 0.1)%float) /\
  compute_target 50 = 50%float /\
  compute_target 100 = 60%float /\
  compute_target 500 = 100%float.
Proof.
  split; [| split; [| split; [| split]]].
  - intros x H50. unfold compute_target. rewrite H50.
    split; [reflexivity | apply mul_one_r].
  - intros x H50 H100. unfold compute_target.
    rewrite (leb_above 50 50 x H50 eq_refl), H100. reflexivity.
  - intros x H100 H500. unfold compute_target.
    rewrite (leb_above 100 50 x H100 eq_refl).
    rewrite (leb_above 100 100 x H100 eq_refl), H500. reflexivity.
  - intros x H500. unfold compute_target.
    rewrite (leb_above 500 50 x H500 eq_refl).
    rewrite (leb_above 500 100 x H500 eq_refl).
    rewrite (leb_above 500 500 x H500 eq_refl). reflexivity.
  - repeat split; vm_compute; reflexivity.
Qed.

(** The witness of C6: sizes of 30, 80, 300 and 600 KB, one in each tier. *)
Lemma compute_target_tiers_witness :
  compute_target 30 = 30%float /\
  compute_target 80 = (80 * 0.6)%float /\
  compute_target 300 = (300 * 0.2)%float /\
  compute_target 600 = (600 * 0.1)%float.
Proof.
  destruct compute_target_tiers as (T1 & T2 & T3 & T4 & _).
  split; [apply (T1 30%float); reflexivity |].
  split; [apply (T2 80%float); reflexivity |].
  split; [apply (T3 300%float); reflexivity |].
  apply (T4 600%float); reflexivity.
Defined.

(** C7.  For a size above 0 the target is at most the size; and for a
    finite size the target equals the size exactly when the size is at most
    50 KB, the lowest tier. *)
Theorem compute_target_at_most_original (x : float) :
  (0 <? x)%float = true ->
  (compute_target x <=? x)%float = true /\
  ((x <? infinity)%float = true ->
   (compute_target x =? x)%float = (x <=? 50)%float).
Proof.
  intros Hpos.
  destruct (x <? infinity)%float eqn:Hfin.
  - unfold compute_target.
    destruct (x <=? 50)%float eqn:H50.
    + rewrite mul_one_r. destruct (leb_eqb_refl x Hfin). auto.
    + destruct (mul_below x Hfin H50) as (H6 & H2 & H1).
      apply ltb_leb_eqb in H6, H2, H1.
      destruct H6, H2, H1.
      destruct (x <=? 100)%float; [auto |].
      destruct (x <=? 500)%float; auto.
  - rewrite (positive_not_finite x Hpos Hfin).
    split; [vm_compute; reflexivity | discriminate].
Qed.

(** The witness of C7: an original size of 80 KB. *)
Lemma compute_target_at_most_original_witness :
  (compute_target 80 <=? 80)%float = true /\
  ((80 <? infinity)%float = true ->
   (compute_target 80 =? 80)%float = (80 <=? 50)%float).
Proof.
  apply (compute_target_at_most_original 80%float). reflexivity.
Defined.

(** C10 does not hold as stated: for an original size of 0 KB nothing is
    raised; the target is 0 KB and the function returns the bytes of the
    encode after the loop. *)
Lemma zero_size_is_not_refused :
  let pil := fake_pillow (fun _ => 1024%nat) in
  compute_target 0 = 0%float /\
  compress_image pil "RGB"%string 0 [] =
    ([52; 35; 27; 23; 21; 20; 20], inr (zeros 1024)) /\
  forall e : string, snd (compress_image pil "RGB"%string 0 []) <> inl e.
Proof.
  cbv zeta. split; [vm_compute; reflexivity |].
  split; [vm_compute; reflexivity |].
  intros e. vm_compute. discriminate.
Qed.

(** C10, amended to what the code does.  The function validates nothing:
    for a size at most 0 the first tier applies and the size itself is the
    target. *)
Theorem compute_target_nonpositive (x : float) :
  (x <=? 0)%float = true ->
  compute_target x = (x * 1.0)%float /\ compute_target x = x.
Proof.
  intros H0. unfold compute_target.
  rewrite (leb_trans x 0 50 H0 eq_refl). split; [reflexivity | apply mul_one_r].
Qed.

(** The witness of C10: a size of -5 KB. *)
Lemma compute_target_nonpositive_witness :
  compute_target (-5) = (-5 * 1.0)%float /\ compute_target (-5) = (-5)%float.
Proof.
  apply (compute_target_nonpositive (-5)%float). reflexivity.
Defined.

(** ** The loop *)

Section SearchFacts.
Context {exn B : Type} `{Buffer B}.
Variable encode : Z -> exn + B.
Variable target_size_kb : float.

Local Abbreviation body := (loop_body encode target_size_kb).
Local Abbreviation loop := (while_loop encode target_size_kb).

(** The loop unfolds as the [while] statement does. *)
Lemma while_loop_eq (s : locals B) log :
  loop s log =
  if min_quality s <=? max_quality s then
    match body s log with
    | (log', inl e) => (log', inl e)
    | (log', inr s') => loop s' log'
    end
  else (log, inr s).
Proof.
  funelim (while_loop encode target_size_kb s log).
  - destruct (Z.leb_spec (min_quality s) (max_quality s)); [lia | reflexivity].
  - destruct (Z.leb_spec (min_quality s) (max_quality s)); [| lia].
    match goal with E : body s log = _ |- _ => now rewrite E end.
  - destruct (Z.leb_spec (min_quality s) (max_quality s)); [| lia].
    match goal with E : body s log = _ |- _ => now rewrite E end.
Qed.

(** One iteration calls the encoder once, at the midpoint, and either
    raises what the encoder raised or halves the interval. *)
Lemma loop_body_step (s : locals B) log :
  let quality := (min_quality s + max_quality s) / 2 in
  match body s log with
  | (log', inl e) => log' = log ++ [quality] /\ encode quality = inl e
  | (log', inr s') =>
      log' = log ++ [quality] /\
      exists output, encode quality = inr output /\
        ((min_quality s' = quality + 1 /\ max_quality s' = max_quality s) \/
         (min_quality s' = min_quality s /\ max_quality s' = quality - 1))
  end.
Proof.
  unfold loop_body, bind, save, ret; cbn.
  destruct (encode _) as [e | output]; [now split |].
  destruct (size_kb output <=? target_size_kb)%float;
    [destruct (best_size s * 0.95 <? size_kb output)%float |];
    (split; [reflexivity | exists output; split; [reflexivity | cbn; auto]]).
Qed.

(** Invariant rule for the loop: an invariant kept by every iteration
    that returns holds of the state at exit; an iteration that raises ends
    the loop there. *)
Lemma while_loop_rule
    (Inv : locals B -> list Z -> Prop)
    (Post : list Z * (exn + locals B) -> Prop) :
  (forall s log, Inv s log -> min_quality s <= max_quality s ->
     match body s log with
     | (log', inl e) => Post (log', inl e)
     | (log', inr s') => Inv s' log'
     end) ->
  (forall s log, Inv s log -> max_quality s < min_quality s ->
     Post (log, inr s)) ->
  forall s log, Inv s log -> Post (loop s log).
Proof.
  intros Hstep Hexit s.
  remember (width s) as n eqn:Hn. revert s Hn.
  induction n as [n IH] using lt_wf_ind. intros s Hn log Hinv.
  rewrite while_loop_eq.
  destruct (Z.leb_spec (min_quality s) (max_quality s)) as [Hle | Hgt].
  - specialize (Hstep s log Hinv Hle).
    pose proof (loop_body_step s log) as Hb. cbv zeta in Hb.
    destruct (body s log) as [log' [e | s']]; [exact Hstep |].
    destruct Hb as [_ (output & _ & Hw)].
    apply (IH (width s')); [| reflexivity | exact Hstep].
    subst n. unfold width.
    assert (min_quality s <= (min_quality s + max_quality s) / 2
            <= max_quality s).
    { split; [apply Z.div_le_lower_bound | apply Z.div_le_upper_bound]; lia. }
    lia.
  - now apply Hexit.
Qed.

(** The midpoint of a non-empty interval lies in it. *)
Lemma midpoint_in (lo hi : Z) :
  lo <= hi -> lo <= (lo + hi) / 2 <= hi.
Proof.
  intros. split; [apply Z.div_le_lower_bound | apply Z.div_le_upper_bound]; lia.
Qed.

(** The interval left after an iteration has at most half the width. *)
Lemma midpoint_halves (lo hi : Z) :
  lo <= hi ->
  2 * (hi + 1 - ((lo + hi) / 2 + 1)) <= hi + 1 - lo /\
  2 * ((lo + hi) / 2 - 1 + 1 - lo) <= hi + 1 - lo.
Proof.
  intros. pose proof (Z.div_mod (lo + hi) 2 ltac:(lia)).
  pose proof (Z.mod_pos_bound (lo + hi) 2 ltac:(lia)). lia.
Qed.

(** No candidate is ever recorded: [best_size] starts at infinity, and
    the test [current_size > best_size * 0.95] fails against it. *)
Lemma while_loop_keeps_no_candidate (s : locals B) log :
  best_output s = None -> best_size s = infinity ->
  match loop s log with
  | (_, inl _) => True
  | (_, inr s') => best_output s' = None /\ best_size s' = infinity
  end.
Proof.
  intros Hout Hsize.
  apply (while_loop_rule
           (fun s _ => best_output s = None /\ best_size s = infinity)
           (fun r => match r with
                     | (_, inl _) => True
                     | (_, inr s') =>
                         best_output s' = None /\ best_size s' = infinity
                     end)); [| auto | auto].
  clear. intros s log [Hout Hsize] _.
  unfold loop_body, bind, save, ret.
  destruct (encode _) as [e | output]; [exact I |].
  rewrite Hsize, nothing_above_infinity.
  destruct (size_kb output <=? target_size_kb)%float; cbn; auto.
Qed.

(** The interval stays within [20, 85], every call is at a quality of the
    interval, and at exit [min_quality = max_quality + 1]. *)
Lemma while_loop_range (s : locals B) log :
  20 <= min_quality s -> max_quality s <= 85 ->
  min_quality s <= max_quality s + 1 ->
  match loop s log with
  | (log', r) =>
      exists calls, log' = log ++ calls /\
        Forall (fun q => 20 <= q <= 85) calls /\
        match r with
        | inl _ => True
        | inr s' => 20 <= min_quality s' <= 86 /\
                    min_quality s' = max_quality s' + 1
        end
  end.
Proof.
  intros Hlo Hhi Hle.
  apply (while_loop_rule
           (fun s l => 20 <= min_quality s /\ max_quality s <= 85 /\
                       min_quality s <= max_quality s + 1 /\
                       exists calls, l = log ++ calls /\
                         Forall (fun q => 20 <= q <= 85) calls)
           (fun r => match r with
                     | (log', r) =>
                         exists calls, log' = log ++ calls /\
                           Forall (fun q => 20 <= q <= 85) calls /\
                           match r with
                           | inl _ => True
                           | inr s' => 20 <= min_quality s' <= 86 /\
                                       min_quality s' = max_quality s' + 1
                           end
                     end)).
  - clear. intros s l (Hlo & Hhi & _ & calls & -> & Hcalls) Hle.
    pose proof (midpoint_in _ _ Hle) as Hmid.
    assert (Hcalls' : Forall (fun q => 20 <= q <= 85)
                        (calls ++ [(min_quality s + max_quality s) / 2])).
    { apply Forall_app; split; [assumption |].
      constructor; [lia | constructor]. }
    unfold loop_body, bind, save, ret.
    destruct (encode _) as [e | output].
    + eexists; split; [symmetry; apply app_assoc | auto].
    + destruct (size_kb output <=? target_size_kb)%float;
        [destruct (best_size s * 0.95 <? size_kb output)%float |]; cbn;
        (repeat split; try lia;
         eexists; split; [symmetry; apply app_assoc | assumption]).
  - clear. intros s l (Hlo & Hhi & Hle & calls & -> & Hcalls) Hgt.
    exists calls. repeat split; auto; lia.
  - repeat split; auto. exists []. rewrite app_nil_r. auto.
Qed.

(** The loop calls the encoder at most [k] times on an interval of fewer
    than [2 ^ k] qualities. *)
Lemma while_loop_calls (k : nat) (s : locals B) log :
  (width s < 2 ^ k)%nat ->
  (List.length (fst (loop s log)) <= List.length log + k)%nat.
Proof.
  intros Hw.
  apply (while_loop_rule
           (fun s l => exists j, (width s < 2 ^ j)%nat /\
                         (List.length l + j <= List.length log + k)%nat)
           (fun r => (List.length (fst r) <= List.length log + k)%nat)).
  - clear. intros s l (j & Hw & Hlen) Hle.
    destruct j as [| j].
    { unfold width in Hw. cbn in Hw. lia. }
    pose proof (midpoint_halves _ _ Hle) as [Hup Hdown].
    assert (Hj : forall w : Z, 2 * w <= max_quality s + 1 - min_quality s ->
                   (Z.to_nat w < 2 ^ j)%nat).
    { intros w Hw2. unfold width in Hw. rewrite Nat.pow_succ_r' in Hw.
      pose proof (Nat.pow_nonzero 2 j ltac:(lia)).
      generalize dependent (2 ^ j)%nat. intros. lia. }
    unfold loop_body, bind, save, ret.
    destruct (encode _) as [e | output].
    + cbn. rewrite length_app. cbn. lia.
    + destruct (size_kb output <=? target_size_kb)%float;
        [destruct (best_size s * 0.95 <? size_kb output)%float |];
        exists j;
        (split; [apply Hj; cbn [min_quality max_quality]; lia
                | rewrite length_app; cbn [List.length]; lia]).
  - clear. intros s l (j & _ & Hlen) _. cbn. lia.
  - exists k. split; [assumption | lia].
Qed.

(** The calls of the loop all return, except for the last one when the
    loop raises: that call raised the exception the loop ends with. *)
Lemma while_loop_raises (s : locals B) log :
  match loop s log with
  | (log', r) =>
      exists calls, log' = log ++ calls /\
        match r with
        | inl e => exists done q, calls = done ++ [q] /\
                     Forall (fun q' => exists b, encode q' = inr b) done /\
                     encode q = inl e
        | inr _ => Forall (fun q' => exists b, encode q' = inr b) calls
        end
  end.
Proof.
  apply (while_loop_rule
           (fun _ l => exists calls, l = log ++ calls /\
              Forall (fun q' => exists b, encode q' = inr b) calls)
           (fun r => match r with
              | (log', r) =>
                exists calls, log' = log ++ calls /\
                  match r with
                  | inl e => exists done q, calls = done ++ [q] /\
                      Forall (fun q' => exists b, encode q' = inr b) done /\
                      encode q = inl e
                  | inr _ =>
                      Forall (fun q' => exists b, encode q' = inr b) calls
                  end
              end)).
  - clear. intros s l (calls & -> & Hcalls) _.
    pose proof (loop_body_step s (log ++ calls)) as Hb. cbv zeta in Hb.
    destruct (body s (log ++ calls)) as [log' [e | s']].
    + destruct Hb as [-> He]. eexists. split; [symmetry; apply app_assoc |].
      eauto.
    + destruct Hb as [-> (output & Hout & _)].
      eexists. split; [symmetry; apply app_assoc |].
      apply Forall_app. split; [assumption |].
      constructor; [eauto | constructor].
  - clear. intros s l (calls & -> & Hcalls) _. eauto.
  - exists []. rewrite app_nil_r. auto.
Qed.

(** At exit the interval is empty, and the quality the loop ends at, when
    it is not above 85, was encoded and did not fit: [max_quality] is only
    lowered to just below such a quality. *)
Lemma while_loop_brackets (s : locals B) log :
  max_quality s = 85 -> min_quality s <= max_quality s + 1 ->
  match loop s log with
  | (_, inl _) => True
  | (_, inr s') =>
      min_quality s' = max_quality s' + 1 /\
      (min_quality s' <= 85 ->
       exists b, encode (min_quality s') = inr b /\
         (size_kb b <=? target_size_kb)%float = false)
  end.
Proof.
  intros Hmax Hle.
  apply (while_loop_rule
           (fun s _ =>
              min_quality s <= max_quality s + 1 /\ max_quality s <= 85 /\
              (max_quality s < 85 ->
               exists b, encode (max_quality s + 1) = inr b /\
                 (size_kb b <=? target_size_kb)%float = false))
           (fun r => match r with
              | (_, inl _) => True
              | (_, inr s') =>
                  min_quality s' = max_quality s' + 1 /\
                  (min_quality s' <= 85 ->
                   exists b, encode (min_quality s') = inr b /\
                     (size_kb b <=? target_size_kb)%float = false)
              end)).
  - clear. intros s log (Hle1 & Hmax & Habove) Hle.
    pose proof (midpoint_in _ _ Hle) as Hmid.
    unfold loop_body, bind, save, ret.
    destruct (encode ((min_quality s + max_quality s) / 2))
      as [e | output] eqn:Henc; [exact I |].
    destruct (size_kb output <=? target_size_kb)%float eqn:Hfit;
      [destruct (best_size s * 0.95 <? size_kb output)%float |];
      cbn [min_quality max_quality]; (split; [lia |]); (split; [lia |]);
      auto.
    intros _. exists output.
    replace ((min_quality s + max_quality s) / 2 - 1 + 1)
      with ((min_quality s + max_quality s) / 2) by lia.
    auto.
  - clear. intros s log (Hle1 & Hmax & Habove) Hgt.
    assert (Hexit : min_quality s = max_quality s + 1) by lia.
    split; [exact Hexit |]. rewrite Hexit. intros H85. apply Habove. lia.
  - split; [lia |]. split; [lia |]. intros Hlt. lia.
Qed.

(** When nothing the encoder returns fits, [min_quality] stays where it
    is. *)
Lemma while_loop_nothing_fits (s : locals B) log :
  (forall q b, min_quality s <= q <= max_quality s -> encode q = inr b ->
     (size_kb b <=? target_size_kb)%float = false) ->
  match loop s log with
  | (_, inl _) => True
  | (_, inr s') => min_quality s' = min_quality s
  end.
Proof.
  intros Hbig.
  apply (while_loop_rule
           (fun s' _ => min_quality s' = min_quality s /\
                        max_quality s' <= max_quality s)
           (fun r => match r with
              | (_, inl _) => True
              | (_, inr s') => min_quality s' = min_quality s
              end)); [| tauto | split; lia].
  intros s' log' (Hmin & Hmax) Hle.
  pose proof (midpoint_in _ _ Hle) as Hmid.
  unfold loop_body, bind, save, ret.
  destruct (encode _) as [e | output] eqn:Henc; [exact I |].
  rewrite (Hbig ((min_quality s' + max_quality s') / 2) output);
    [| lia | exact Henc].
  cbn [min_quality max_quality]. lia.
Qed.
End SearchFacts.

(** ** Two runs *)

Section TwoRuns.
Context {exn B : Type} `{Buffer B}.
Variables encode1 encode2 : Z -> exn + B.
Variable target_size_kb : float.

(** One iteration with encoders that agree at the midpoint. *)
Lemma loop_body_agree (s : locals B) log1 log2 :
  let quality := (min_quality s + max_quality s) / 2 in
  encode1 quality = encode2 quality ->
  exists r,
    loop_body encode1 target_size_kb s log1 = (log1 ++ [quality], r) /\
    loop_body encode2 target_size_kb s log2 = (log2 ++ [quality], r) /\
    match r with
    | inl _ => True
    | inr s' =>
        (min_quality s' = quality + 1 /\ max_quality s' = max_quality s) \/
        (min_quality s' = min_quality s /\ max_quality s' = quality - 1)
    end.
Proof.
  intros quality Hq. unfold loop_body, bind, save, ret. fold quality.
  rewrite <- Hq.
  destruct (encode1 quality) as [e | output]; [eauto |].
  destruct (size_kb output <=? target_size_kb)%float;
    [destruct (best_size s * 0.95 <? size_kb output)%float |];
    (eexists; split; [reflexivity | split; [reflexivity | cbn; auto]]).
Qed.

(** Encoders that agree on the interval make the loop do the same calls
    and end the same way, whatever was logged before. *)
Lemma while_loop_agree (s : locals B) log1 log2 :
  (forall q, min_quality s <= q <= max_quality s -> encode1 q = encode2 q) ->
  exists calls r,
    while_loop encode1 target_size_kb s log1 = (log1 ++ calls, r) /\
    while_loop encode2 target_size_kb s log2 = (log2 ++ calls, r).
Proof.
  remember (width s) as n eqn:Hn. revert s Hn log1 log2.
  induction n as [n IH] using lt_wf_ind. intros s Hn log1 log2 Hagree.
  rewrite !while_loop_eq.
  destruct (Z.leb_spec (min_quality s) (max_quality s)) as [Hle | Hgt].
  - pose proof (midpoint_in _ _ Hle) as Hmid.
    destruct (loop_body_agree s log1 log2 (Hagree _ Hmid))
      as ([e | s'] & -> & -> & Hs').
    + eauto.
    + destruct (IH (width s')) with (s := s')
        (log1 := log1 ++ [(min_quality s + max_quality s) / 2])
        (log2 := log2 ++ [(min_quality s + max_quality s) / 2])
        as (calls & r & H1 & H2).
      * subst n. unfold width. lia.
      * reflexivity.
      * intros q Hq. apply Hagree. lia.
      * exists ((min_quality s + max_quality s) / 2 :: calls), r.
        rewrite H1, H2, <- !app_assoc. auto.
  - exists [], (inr s). rewrite !app_nil_r. auto.
Qed.
End TwoRuns.

(** ** The search as a whole *)

(** [compress_image] is the search with the encoder of the normalised
    image and the target of the size policy. *)
Lemma compress_image_is_search {exn Image} (pil : Pillow exn Image)
    (image : Image) (original_size_kb : float) :
  compress_image pil image original_size_kb =
  search
    (save_jpeg pil
       (if existsb (String.eqb (mode pil image)) ["RGBA"; "P"]%string
        then convert pil image "RGB" else copy pil image))
    (compute_target original_size_kb).
Proof. reflexivity. Qed.

Section SearchRun.
Context {exn B : Type} `{Buffer B}.
Variable encode : Z -> exn + B.
Variable target_size_kb : float.

Local Abbreviation loop := (while_loop encode target_size_kb).

(** The search makes the calls of the loop and then, the loop having
    recorded nothing, one more at the final [min_quality]. *)
Lemma search_eq log :
  search encode target_size_kb log =
  match loop initial log with
  | (log', inl e) => (log', inl e)
  | (log', inr s) => (log' ++ [min_quality s], encode (min_quality s))
  end.
Proof.
  unfold search, bind.
  pose proof (while_loop_keeps_no_candidate encode target_size_kb
                initial log eq_refl eq_refl) as Hnone.
  destruct (loop initial log) as [log' [e | s]]; [reflexivity |].
  destruct Hnone as [-> _]. reflexivity.
Qed.
End SearchRun.

(** C5.  Whatever the encoder and the target, the test
    [current_size > best_size * 0.95] never holds against the initial
    [best_size] of infinity, so the loop leaves [best_output] at [None] and
    [best_size] at infinity, and the bytes the search returns are those of
    the one encode made after the loop, at the final [min_quality], whether
    or not a quality fitted the target. *)
Theorem search_returns_post_loop_encode {exn B} `{Buffer B}
    (encode : Z -> exn + B) (target_size_kb : float) (log : list Z) :
  (forall current_size : float,
     (best_size (@initial B) * 0.95 <? current_size)%float = false) /\
  match while_loop encode target_size_kb initial log with
  | (log', inl e) => search encode target_size_kb log = (log', inl e)
  | (log', inr s) =>
      best_output s = None /\ best_size s = infinity /\
      search encode target_size_kb log =
        (log' ++ [min_quality s], encode (min_quality s))
  end.
Proof.
  split; [intros x; apply nothing_above_infinity |].
  pose proof (search_eq encode target_size_kb log) as Hs.
  pose proof (while_loop_keeps_no_candidate encode target_size_kb
                initial log eq_refl eq_refl) as Hnone.
  destruct (while_loop encode target_size_kb initial log) as [log' [e | s]];
    [assumption |].
  destruct Hnone. auto.
Qed.

(** C8.  The search is deterministic: two runs with the same target and
    with encoders that return the same result at every quality the search
    can ask for make the same calls and end with the same outcome, whatever
    was done before either run. *)
Theorem search_deterministic {exn B} `{Buffer B}
    (encode1 encode2 : Z -> exn + B) (target_size_kb : float)
    (log1 log2 : list Z) :
  (forall q, 20 <= q <= 86 -> encode1 q = encode2 q) ->
  exists calls outcome,
    search encode1 target_size_kb log1 = (log1 ++ calls, outcome) /\
    search encode2 target_size_kb log2 = (log2 ++ calls, outcome).
Proof.
  intros Hagree. rewrite !search_eq.
  destruct (while_loop_agree encode1 encode2 target_size_kb initial log1 log2)
    as (calls & r & H1 & H2).
  { intros q Hq. apply Hagree. cbn in Hq. lia. }
  pose proof (while_loop_range encode1 target_size_kb initial log1) as Hr.
  rewrite H1, H2. rewrite H1 in Hr.
  destruct r as [e | s]; [eauto |].
  destruct Hr as (_ & _ & _ & Hmin & _); [cbn; lia .. |].
  exists (calls ++ [min_quality s]), (encode1 (min_quality s)).
  rewrite !app_assoc, (Hagree _ Hmin). auto.
Qed.

(** The witness of C8: [guarded_encode] agrees with [linear_encode] on the
    qualities from 20 to 86. *)
Lemma search_deterministic_witness :
  exists calls outcome,
    @search _ _ linear_output linear_encode 60 [] = ([] ++ calls, outcome) /\
    @search _ _ linear_output guarded_encode 60 [7] = ([7] ++ calls, outcome).
Proof.
  apply (@search_deterministic _ _ linear_output linear_encode guarded_encode
           60%float [] [7]).
  intros q Hq. unfold linear_encode, guarded_encode.
  destruct (Z.ltb_spec q 0); [lia | reflexivity].
Defined.

(** C9.  An exception of the encoder ends the search at once and reaches
    the caller unchanged: when the search raises [e], its last call of the
    encoder raised [e] and every call before it returned; when the search
    returns, every call returned. *)
Theorem search_propagates_encoder_error {exn B} `{Buffer B}
    (encode : Z -> exn + B) (target_size_kb : float) (log : list Z) :
  match search encode target_size_kb log with
  | (log', outcome) =>
      exists calls, log' = log ++ calls /\
        match outcome with
        | inl e => exists done q, calls = done ++ [q] /\
                     Forall (returns_at encode) done /\ encode q = inl e
        | inr _ => Forall (returns_at encode) calls
        end
  end.
Proof.
  rewrite search_eq.
  pose proof (while_loop_raises encode target_size_kb initial log) as Hl.
  destruct (while_loop encode target_size_kb initial log) as [log' [e | s]];
    [exact Hl |].
  destruct Hl as (calls & -> & Hcalls).
  exists (calls ++ [min_quality s]). split; [symmetry; apply app_assoc |].
  destruct (encode (min_quality s)) as [e | b] eqn:Hq.
  - exists calls, (min_quality s). auto.
  - apply Forall_app. split; [assumption |].
    constructor; [exists b; assumption | constructor].
Qed.

(** The loop encodes at most 7 times, and the search at most 8 times: the
    interval holds 66 qualities, every iteration halves it, and one encode
    follows the loop. *)
Theorem search_encodes_at_most_eight_times {exn B} `{Buffer B}
    (encode : Z -> exn + B) (target_size_kb : float) (log : list Z) :
  (List.length (fst (while_loop encode target_size_kb initial log))
     <= List.length log + 7)%nat /\
  (List.length (fst (search encode target_size_kb log))
     <= List.length log + 8)%nat.
Proof.
  assert (Hloop : (List.length (fst (while_loop encode target_size_kb
                                       initial log))
                   <= List.length log + 7)%nat).
  { apply while_loop_calls. vm_compute. lia. }
  split; [exact Hloop |].
  rewrite search_eq.
  destruct (while_loop encode target_size_kb initial log) as [log' [e | s]];
    cbn [fst] in *; [lia |].
  rewrite length_app. cbn [List.length]. lia.
Qed.

(** Every quality the loop encodes at lies in [20, 85], and every quality
    the search encodes at lies in [20, 86]. *)
Theorem search_qualities_between_20_and_86 {exn B} `{Buffer B}
    (encode : Z -> exn + B) (target_size_kb : float) (log : list Z) :
  (exists calls, fst (while_loop encode target_size_kb initial log)
                 = log ++ calls /\
     Forall (fun q => 20 <= q <= 85) calls) /\
  (exists calls, fst (search encode target_size_kb log) = log ++ calls /\
     Forall (fun q => 20 <= q <= 86) calls).
Proof.
  pose proof (while_loop_range encode target_size_kb initial log) as Hr.
  rewrite search_eq.
  destruct (while_loop encode target_size_kb initial log) as [log' r].
  destruct Hr as (calls & -> & Hcalls & Hexit); [cbn; lia .. |].
  split; [exists calls; auto |].
  assert (Hwide : Forall (fun q => 20 <= q <= 86) calls).
  { eapply Forall_impl; [| exact Hcalls]. cbn. intros; lia. }
  destruct r as [e | s]; cbn [fst].
  - exists calls. auto.
  - exists (calls ++ [min_quality s]). split; [symmetry; apply app_assoc |].
    apply Forall_app. split; [assumption |].
    constructor; [lia | constructor].
Qed.

(** Bytes that the search returns fit the target only when they were
    encoded at quality 86: the encode after the loop is at the quality that
    ended the loop, which is 86 or a quality that was encoded before and did
    not fit. *)
Theorem search_meets_target_only_at_86 {exn B} `{Buffer B}
    (encode : Z -> exn + B) (target_size_kb : float) (log log' : list Z)
    (b : B) :
  search encode target_size_kb log = (log', inr b) ->
  (size_kb b <=? target_size_kb)%float = true ->
  last log' 0 = 86.
Proof.
  rewrite search_eq.
  pose proof (while_loop_brackets encode target_size_kb initial log
                eq_refl ltac:(cbn; lia)) as Hb.
  pose proof (while_loop_range encode target_size_kb initial log) as Hr.
  destruct (while_loop encode target_size_kb initial log) as [l [e | s]];
    [discriminate |].
  destruct Hb as [_ Hmiss].
  destruct Hr as (_ & _ & _ & Hmin & _); [cbn; lia .. |].
  intros [= <- Hq] Hfit. rewrite last_last.
  destruct (Z.eq_dec (min_quality s) 86) as [-> | Hne]; [reflexivity |].
  destruct Hmiss as (b' & Hq' & Hfit'); [lia |]. congruence.
Qed.

(** A run that meets the target, at quality 86: 1024 bytes at every
    quality against a target of 30 KB. *)
Lemma search_meets_target_only_at_86_witness :
  search (constant_encode 1024) 30 [] =
    ([52; 69; 77; 81; 83; 84; 85; 86], inr (zeros 1024)) /\
  (size_kb (zeros 1024) <=? 30)%float = true /\
  last [52; 69; 77; 81; 83; 84; 85; 86] 0 = 86.
Proof.
  assert (Hrun : search (constant_encode 1024) 30 [] =
                 ([52; 69; 77; 81; 83; 84; 85; 86], inr (zeros 1024)))
    by (vm_compute; reflexivity).
  assert (Hfit : (size_kb (zeros 1024) <=? 30)%float = true)
    by (vm_compute; reflexivity).
  split; [exact Hrun |]. split; [exact Hfit |].
  exact (search_meets_target_only_at_86 _ _ _ _ _ Hrun Hfit).
Defined.

(** When no quality from 20 to 85 fits the target, the loop ends with
    [min_quality] at 20 and the search returns the encode at quality 20. *)
Theorem nothing_fits_encodes_at_20 {exn B} `{Buffer B}
    (encode : Z -> exn + B) (target_size_kb : float) (log : list Z) :
  (forall q b, 20 <= q <= 85 -> encode q = inr b ->
     (size_kb b <=? target_size_kb)%float = false) ->
  match while_loop encode target_size_kb initial log with
  | (log', inl e) => search encode target_size_kb log = (log', inl e)
  | (log', inr s) =>
      min_quality s = 20 /\
      search encode target_size_kb log = (log' ++ [20], encode 20)
  end.
Proof.
  intros Hbig. rewrite search_eq.
  pose proof (while_loop_nothing_fits encode target_size_kb initial log Hbig)
    as Hmin.
  destruct (while_loop encode target_size_kb initial log) as [log' [e | s]];
    [reflexivity |].
  cbn in Hmin. rewrite Hmin. auto.
Qed.

(** A run in which nothing fits: 2048 bytes at every quality against a
    target of 1 KB. *)
Lemma nothing_fits_encodes_at_20_witness :
  match while_loop (constant_encode 2048) 1 initial [] with
  | (log', inl e) => search (constant_encode 2048) 1 [] = (log', inl e)
  | (log', inr s) =>
      min_quality s = 20 /\
      search (constant_encode 2048) 1 [] =
        (log' ++ [20], constant_encode 2048 20)
  end.
Proof.
  apply (nothing_fits_encodes_at_20 (constant_encode 2048) 1%float []).
  intros q b _ [= <-]. vm_compute. reflexivity.
Defined.

(** ** Runs on concrete inputs *)

(** C1.  A 300 KB image (target 60 KB) whose JPEG at quality [q] takes
    exactly [q] KB: qualities 52 and 60 fit the target, yet the loop ends
    with [best_output] still [None], and the function returns the encode
    made after the loop at quality 61, which is 61 KB and does not fit. *)
Theorem fitting_quality_is_not_returned :
  let pil := fake_pillow (fun q => Z.to_nat (1024 * q)) in
  let target := compute_target 300 in
  target = 60%float /\
  (size_kb (zeros (Z.to_nat (1024 * 52))) <=? target)%float = true /\
  (size_kb (zeros (Z.to_nat (1024 * 60))) <=? target)%float = true /\
  while_loop (save_jpeg pil "RGB"%string) target initial [] =
    ([52; 69; 60; 64; 62; 61],
     inr {| min_quality := 61; max_quality := 60; best_quality := 85;
            best_output := None; best_size := infinity |}) /\
  compress_image pil "RGB"%string 300 [] =
    ([52; 69; 60; 64; 62; 61; 61], inr (zeros (Z.to_nat (1024 * 61)))) /\
  (size_kb (zeros (Z.to_nat (1024 * 61))) <=? target)%float = false.
Proof.
  cbv zeta. split; [vm_compute; reflexivity |].
  do 3 (split; [vm_compute; reflexivity |]).
  split; [| vm_compute; reflexivity].
  unfold compress_image. rewrite search_eq.
  run_loop ([52; 69; 60; 64; 62; 61],
            inr (A := string)
              {| min_quality := 61; max_quality := 60; best_quality := 85;
                 best_output := @None bytes; best_size := infinity |}).
  reflexivity.
Qed.

(** C2.  The 600 KB scenario: the target is 60 KB and quality 50 encodes to
    exactly 60 KB, but the loop records no candidate and the search returns
    the output of quality 51, of more than 60 KB, from the encode after the
    loop. *)
Theorem scenario_600_returns_quality_51 :
  let target := compute_target 600 in
  target = 60%float /\
  @size_kb _ linear_output 50 = 60%float /\
  @while_loop _ _ linear_output linear_encode target initial [] =
    ([52; 35; 43; 47; 49; 50; 51],
     inr {| min_quality := 51; max_quality := 50; best_quality := 85;
            best_output := None; best_size := infinity |}) /\
  @search _ _ linear_output linear_encode target [] =
    ([52; 35; 43; 47; 49; 50; 51; 51], inr 51) /\
  (@size_kb _ linear_output 51%Z <=? target)%float = false.
Proof. cbv zeta. repeat split; vm_compute; reflexivity. Qed.

(** C3.  A 30 KB image whose JPEG takes 1 KB at every quality: every
    quality fits, the loop raises [min_quality] to 86, and the bytes
    returned were encoded at quality 86, outside [20, 85]. *)
Theorem returned_bytes_encoded_at_86 :
  let pil := fake_pillow (fun _ => 1024%nat) in
  while_loop (save_jpeg pil "RGB"%string) (compute_target 30) initial [] =
    ([52; 69; 77; 81; 83; 84; 85],
     inr {| min_quality := 86; max_quality := 85; best_quality := 85;
            best_output := None; best_size := infinity |}) /\
  compress_image pil "RGB"%string 30 [] =
    ([52; 69; 77; 81; 83; 84; 85; 86], save_jpeg pil "RGB"%string 86) /\
  ~ 20 <= last (fst (compress_image pil "RGB"%string 30 [])) 0 <= 85.
Proof.
  cbv zeta. repeat split; try (vm_compute; reflexivity).
  vm_compute. intros [_ Hle]. now apply Hle.
Qed.

(** C4.  A 600 KB palette image whose JPEG at quality [q] takes [1228 * q]
    bytes: the loop encodes seven times and the function once more after
    it, eight encoder calls in all. *)
Theorem compress_image_encodes_eight_times :
  let pil := fake_pillow (fun q => Z.to_nat (1228 * q)) in
  fst (while_loop (save_jpeg pil "RGB"%string) (compute_target 600)
         initial []) =
    [52; 35; 43; 47; 49; 50; 51] /\
  fst (compress_image pil "P"%string 600 []) =
    [52; 35; 43; 47; 49; 50; 51; 51] /\
  List.length (fst (compress_image pil "P"%string 600 [])) = 8%nat.
Proof. cbv zeta. repeat split; vm_compute; reflexivity. Qed.

(** ** The search with a monotone encoder *)

(** With an encoder that never raises and whose outputs fit at every
    quality below one that fits, the loop ends at the boundary: every
    quality below the final [min_quality] fits and none from it on does;
    and the search returns the encode at that [min_quality]. *)
Theorem monotone_encoder_returns_lowest_misfit {exn B} `{Buffer B}
    (encode : Z -> exn + B) (target_size_kb : float) (log : list Z) :
  (forall q, 20 <= q <= 85 -> returns_at encode q) ->
  (forall q1 q2, 20 <= q1 <= q2 -> q2 <= 85 ->
     fits encode target_size_kb q2 -> fits encode target_size_kb q1) ->
  exists log' s,
    while_loop encode target_size_kb initial log = (log', inr s) /\
    (forall q, 20 <= q < min_quality s -> fits encode target_size_kb q) /\
    (forall q, min_quality s <= q <= 85 -> ~ fits encode target_size_kb q) /\
    search encode target_size_kb log =
      (log' ++ [min_quality s], encode (min_quality s)).
Proof.
  intros Hret Hmono.
  rewrite search_eq.
  assert (Hloop :
    match while_loop encode target_size_kb initial log with
    | (_, inl _) => False
    | (_, inr s) =>
        (forall q, 20 <= q < min_quality s -> fits encode target_size_kb q) /\
        (forall q, min_quality s <= q <= 85 ->
           ~ fits encode target_size_kb q)
    end).
  { apply (while_loop_rule encode target_size_kb
             (fun s _ =>
                20 <= min_quality s /\ max_quality s <= 85 /\
                (forall q, 20 <= q < min_quality s ->
                   fits encode target_size_kb q) /\
                (forall q, max_quality s < q <= 85 ->
                   ~ fits encode target_size_kb q))
             (fun r => match r with
                | (_, inl _) => False
                | (_, inr s) =>
                    (forall q, 20 <= q < min_quality s ->
                       fits encode target_size_kb q) /\
                    (forall q, min_quality s <= q <= 85 ->
                       ~ fits encode target_size_kb q)
                end)).
    - intros s l (Hlo & Hhi & Hbelow & Habove) Hle.
      pose proof (midpoint_in _ _ Hle) as Hmid.
      unfold loop_body, bind, save, ret.
      destruct (Hret ((min_quality s + max_quality s) / 2) ltac:(lia))
        as (output & Henc).
      rewrite Henc.
      destruct (size_kb output <=? target_size_kb)%float eqn:Hfit.
      + assert (Hmidfits : fits encode target_size_kb
                             ((min_quality s + max_quality s) / 2))
          by (exists output; auto).
        destruct (best_size s * 0.95 <? size_kb output)%float;
          cbn [min_quality max_quality];
          (split; [lia |]); (split; [lia |]); (split; [| exact Habove]);
          intros q Hq;
          apply (Hmono q ((min_quality s + max_quality s) / 2));
          auto; lia.
      + cbn [min_quality max_quality].
        split; [lia |]. split; [lia |]. split; [exact Hbelow |].
        intros q Hq Hqfits.
        assert (Hmidfits : fits encode target_size_kb
                             ((min_quality s + max_quality s) / 2))
          by (apply (Hmono _ q); auto; lia).
        destruct Hmidfits as (b & Hb & Hbfit). congruence.
    - intros s l (Hlo & Hhi & Hbelow & Habove) Hgt.
      split; [exact Hbelow |]. intros q Hq. apply Habove. lia.
    - cbn. split; [lia |]. split; [lia |]. split; intros q Hq; lia. }
  destruct (while_loop encode target_size_kb initial log) as [log' [e | s]];
    [contradiction |].
  exists log', s. destruct Hloop. auto.
Qed.

(** A run with [step_encode] against a target of 2 KB. *)
Lemma monotone_encoder_returns_lowest_misfit_witness :
  exists log' s,
    while_loop step_encode 2 initial [] = (log', inr s) /\
    (forall q, 20 <= q < min_quality s -> fits step_encode 2 q) /\
    (forall q, min_quality s <= q <= 85 -> ~ fits step_encode 2 q) /\
    search step_encode 2 [] =
      (log' ++ [min_quality s], step_encode (min_quality s)).
Proof.
  apply (monotone_encoder_returns_lowest_misfit step_encode 2%float []).
  - intros q _. unfold returns_at, step_encode. eauto.
  - intros q1 q2 Hq1 Hq2 (b & Hb & Hfit). unfold fits, step_encode in *.
    injection Hb as <-.
    destruct (Z.leb_spec q2 60) as [H2 | H2];
      [| vm_compute in Hfit; discriminate].
    destruct (Z.leb_spec q1 60); [eauto | lia].
Defined.

(** ** The page: the loop over the uploads and the previews *)



(** The lookup returns the first uploaded file with the name. *)
Lemma next_file_first {exn : Type} (before : list UploadedFile)
    (f : UploadedFile) after :
  Forall (fun g => file_name g <> file_name f) before ->
  @next_file exn (before ++ f :: after) (file_name f) = inr f.
Proof.
  unfold next_file. induction before as [| g before IH]; intros Hb; cbn.
  - rewrite String.eqb_refl. reflexivity.
  - inversion Hb as [| ? ? Hg Hrest]; subst.
    destruct (String.eqb_spec (file_name g) (file_name f)); [contradiction |].
    apply IH. exact Hrest.
Qed.

(** A list splits at the first element with a given name. *)
Lemma first_with_name (files : list UploadedFile) (f : UploadedFile) :
  In f files ->
  exists before f' after,
    files = before ++ f' :: after /\
    file_name f' = file_name f /\
    Forall (fun g => file_name g <> file_name f) before.
Proof.
  induction files as [| g files IH]; [contradiction |]. intros Hin.
  destruct (string_dec (file_name g) (file_name f)) as [Heq | Hne].
  - exists [], g, files. auto.
  - destruct Hin as [-> | Hin]; [contradiction |].
    destruct (IH Hin) as (before & f' & after & -> & Hname & Hb).
    exists (g :: before), f', after. auto.
Qed.

Section PageFacts.
Context {exn Image : Type}.
Variable vw : Viewer exn Image.

(** A call of [compress_image] renders its encoder calls, at most eight,
    each at a quality from 20 to 86. *)
Lemma compressing_compress_image (image : Image) (kb : float)
    (evs : list (event exn Image)) :
  exists calls,
    compressing (compress_image (pillow vw) image kb) evs =
      (evs ++ map Encoded calls,
       match snd (compress_image (pillow vw) image kb []) with
       | inl e => inl (LibraryError e)
       | inr b => inr b
       end) /\
    (List.length calls <= 8)%nat /\
    Forall (fun q => 20 <= q <= 86) calls.
Proof.
  unfold compressing, library, call.
  rewrite compress_image_is_search.
  set (enc := save_jpeg (pillow vw) _).
  set (target := compute_target kb).
  pose proof (while_loop_calls enc target 7 initial []
                ltac:(vm_compute; lia)) as Hn.
  pose proof (while_loop_range enc target initial []
                ltac:(cbn; lia) ltac:(cbn; lia) ltac:(cbn; lia)) as Hr.
  rewrite search_eq.
  destruct (while_loop enc target initial []) as [calls [e | s]];
    cbn [fst snd] in *; destruct Hr as (calls' & Hc & Hrange & Hexit);
    cbn in Hc, Hn; subst calls'.
  - exists calls. split; [reflexivity |]. split; [lia |].
    eapply Forall_impl; [| exact Hrange]. cbn. intros; lia.
  - exists (calls ++ [min_quality s]). split; [reflexivity |].
    split; [rewrite length_app; cbn; lia |].
    apply Forall_app. split.
    + eapply Forall_impl; [| exact Hrange]. cbn. intros; lia.
    + constructor; [lia | constructor].
Qed.

(** One round of the loop over the uploaded files. *)
Lemma compress_all_cons (f : UploadedFile) rest acc
    (evs : list (event exn Image)) :
  compress_all vw (f :: rest) acc evs =
  match image_open vw (file_data f) with
  | inl e => (evs, inl (LibraryError e))
  | inr image =>
      match compressing (compress_image (pillow vw) image (upload_kb f)) evs
      with
      | (evs1, inl e) => (evs1, inl e)
      | (evs1, inr b) => compress_all vw rest (acc ++ [(file_name f, b)]) evs1
      end
  end.
Proof.
  cbn [compress_all]. unfold ui_bind, library, call, upload_kb.
  destruct (image_open vw (file_data f)); reflexivity.
Qed.

(** What the loop renders is encoder calls only, at most eight per
    uploaded file, each at a quality from 20 to 86. *)
Lemma compress_all_run
    (files : list UploadedFile) acc (evs : list (event exn Image)) :
  exists new,
    fst (compress_all vw files acc evs) = evs ++ new /\
    Forall (fun ev => exists q, ev = Encoded q /\ 20 <= q <= 86) new /\
    (List.length new <= 8 * List.length files)%nat.
Proof.
  revert acc evs. induction files as [| f rest IH]; intros acc evs.
  - exists []. cbn. rewrite app_nil_r. auto.
  - rewrite compress_all_cons.
    destruct (image_open vw (file_data f)) as [e | image].
    { exists []. cbn [fst]. rewrite app_nil_r.
      split; [reflexivity |]. split; [constructor | cbn; lia]. }
    destruct (compressing_compress_image image (upload_kb f) evs)
      as (calls & -> & Hlen & Hrange).
    assert (Hcalls : Forall (fun ev : event exn Image =>
                       exists q, ev = Encoded q /\ 20 <= q <= 86)
                       (map Encoded calls)).
    { apply Forall_map. eapply Forall_impl; [| exact Hrange].
      cbn. intros q Hq. exists q. auto. }
    destruct (snd (compress_image (pillow vw) image (upload_kb f) []))
      as [e | b].
    + exists (map Encoded calls). cbn [fst].
      split; [reflexivity |]. split; [exact Hcalls |].
      rewrite length_map. cbn [List.length]. lia.
    + destruct (IH (acc ++ [(file_name f, b)]) (evs ++ map Encoded calls))
        as (new & -> & Hnew & Hcount).
      exists (map Encoded calls ++ new).
      split; [symmetry; apply app_assoc |].
      split; [apply Forall_app; auto |].
      rewrite length_app, length_map. cbn [List.length]. lia.
Qed.

(** When the loop returns, it has added one entry per uploaded file, in the
    order of the upload: the name of the file with the bytes that
    [compress_image] returns for the opened file and its size in KB. *)
Lemma compress_all_entries
    (files : list UploadedFile) acc (evs evs' : list (event exn Image)) out :
  compress_all vw files acc evs = (evs', inr out) ->
  exists added, out = acc ++ added /\
    Forall2 (fun f entry =>
               fst entry = file_name f /\
               exists image, image_open vw (file_data f) = inr image /\
                 snd (compress_image (pillow vw) image (upload_kb f) [])
                 = inr (snd entry))
            files added.
Proof.
  revert acc evs. induction files as [| f rest IH]; intros acc evs.
  - intros [= _ <-]. exists []. rewrite app_nil_r. auto.
  - rewrite compress_all_cons.
    destruct (image_open vw (file_data f)) as [e | image] eqn:Hopen;
      [discriminate |].
    destruct (compressing_compress_image image (upload_kb f) evs)
      as (calls & -> & _).
    destruct (snd (compress_image (pillow vw) image (upload_kb f) []))
      as [e | b] eqn:Hb; [discriminate |].
    intros Hrest. apply IH in Hrest. destruct Hrest as (added & -> & Hall).
    exists ((file_name f, b) :: added).
    split; [rewrite <- app_assoc; reflexivity |].
    constructor; [| exact Hall]. cbn [fst snd]. eauto.
Qed.

(** When the loop raises, it raises what opening or compressing one file
    raised, after the files before it were compressed; the files after it
    are not touched. *)
Theorem compress_all_stops_at_first_failure
    (files : list UploadedFile) acc (evs evs' : list (event exn Image)) e :
  compress_all vw files acc evs = (evs', inl e) ->
  exists done f rest out evs1,
    files = done ++ f :: rest /\
    compress_all vw done acc evs = (evs1, inr out) /\
    compress_all vw [f] out evs1 = (evs', inl e).
Proof.
  revert acc evs. induction files as [| f rest IH]; intros acc evs.
  - discriminate.
  - rewrite compress_all_cons.
    destruct (image_open vw (file_data f)) as [e0 | image] eqn:Hopen.
    { intros [= <- <-]. exists [], f, rest, acc, evs.
      rewrite compress_all_cons, Hopen. auto. }
    destruct (compressing (compress_image (pillow vw) image (upload_kb f))
                evs) as [evs1 [e0 | b]] eqn:Hc.
    { intros [= <- <-]. exists [], f, rest, acc, evs.
      rewrite compress_all_cons, Hopen, Hc. auto. }
    intros Hrest. apply IH in Hrest.
    destruct Hrest as (done & f' & rest' & out & evs2 & -> & Hdone & Hf).
    exists (f :: done), f', rest', out, evs2.
    split; [reflexivity |]. split; [| exact Hf].
    rewrite compress_all_cons, Hopen, Hc. exact Hdone.
Qed.

(** What the previews render is columns and pictures only. *)
Lemma preview_run (files : list UploadedFile) imgs
    (evs : list (event exn Image)) :
  exists shown,
    fst (preview vw files imgs evs) = evs ++ shown /\
    forallb is_preview shown = true.
Proof.
  revert evs. induction imgs as [| [filename data] rest IH]; intros evs.
  - exists []. cbn. rewrite app_nil_r. auto.
  - cbn [preview]. unfold ui_bind, emit, library, call.
    destruct (next_file files filename) as [e | original].
    { exists [Columns]. auto. }
    destruct (image_open vw (file_data original)) as [e | shown].
    { exists [Columns]. auto. }
    destruct (image_open vw data) as [e | decoded].
    { exists [Columns; Picture shown (Some ("Original: " ++ filename)%string)].
      cbn [fst]. rewrite <- app_assoc. auto. }
    match goal with
    | |- context [preview vw files rest ?evs1] =>
        destruct (IH evs1) as (more & -> & Hmore)
    end.
    exists (Columns :: Picture shown (Some ("Original: " ++ filename)%string)
            :: Picture decoded (Some ("Compressed: " ++ filename)%string)
            :: more).
    split; [| cbn; exact Hmore].
    rewrite <- !app_assoc. reflexivity.
Qed.

(** The multiple mode returns, whatever happens in it. *)
Lemma compress_multiple_returns (files : list UploadedFile) ts
    (evs : list (event exn Image)) :
  exists new, compress_multiple vw files ts evs = (evs ++ new, inr tt).
Proof.
  unfold compress_multiple, try_except, ui_bind, emit.
  destruct (compress_all_run files [] (evs ++ [Spinner "Processing images..."]))
    as (encs & Hencs & _).
  destruct (compress_all vw files [] _) as [evs1 [e | out]];
    cbn [fst] in Hencs; subst evs1.
  { eexists. rewrite <- !app_assoc. reflexivity. }
  match goal with
  | |- context [preview vw files out ?evs1] =>
      destruct (preview_run files out evs1) as (shown & Hshown & _);
      destruct (preview vw files out evs1) as [evs2 [e | []]];
      cbn [fst] in Hshown; subst evs2
  end; eexists; rewrite <- !app_assoc; reflexivity.
Qed.

(** The single mode returns, whatever happens in it. *)
Lemma compress_single_returns (f : UploadedFile) (image : Image) kb ts
    (evs : list (event exn Image)) :
  exists new, compress_single vw f image kb ts evs = (evs ++ new, inr tt).
Proof.
  unfold compress_single, try_except, ui_bind, emit.
  destruct (compressing_compress_image image kb
              (evs ++ [Spinner "Compressing image..."]))
    as (calls & -> & _).
  destruct (snd (compress_image (pillow vw) image kb [])) as [e | b].
  { eexists. rewrite <- !app_assoc. reflexivity. }
  unfold call, reduction_percent.
  destruct (kb =? 0)%float; eexists; rewrite <- !app_assoc; reflexivity.
Qed.


End PageFacts.

(** ** The page: what a user sees *)

Section PageTheorems.
Context {exn Image : Type}.
Variable vw : Viewer exn Image.

(** When the loop over the uploaded files returns, its result has one
    entry per uploaded file, in the order of the upload: the name of the
    file with the bytes that [compress_image] returns for the opened file
    and its size in KB. *)
Theorem compress_all_keeps_names_and_order
    (files : list UploadedFile) (evs evs' : list (event exn Image)) out :
  compress_all vw files [] evs = (evs', inr out) ->
  Forall2 (fun f entry =>
             fst entry = file_name f /\
             exists image, image_open vw (file_data f) = inr image /\
               snd (compress_image (pillow vw) image (upload_kb f) [])
               = inr (snd entry))
          files out.
Proof.
  intros Hrun. apply compress_all_entries in Hrun.
  destruct Hrun as (added & -> & Hall). exact Hall.
Qed.

(** What the loop renders is encoder calls only, at most eight per
    uploaded file, each at a quality from 20 to 86. *)
Theorem compress_all_encodes_eight_times_per_file
    (files : list UploadedFile) (evs : list (event exn Image)) :
  exists new,
    fst (compress_all vw files [] evs) = evs ++ new /\
    Forall (fun ev => exists q, ev = Encoded q /\ 20 <= q <= 86) new /\
    (List.length new <= 8 * List.length files)%nat.
Proof. apply compress_all_run. Qed.

(** The lookup of the preview, for the name of an uploaded file, raises
    nothing and returns the first uploaded file with that name. *)
Theorem next_file_finds_first_match (files : list UploadedFile)
    (f : UploadedFile) :
  In f files ->
  exists before f' after,
    files = before ++ f' :: after /\
    file_name f' = file_name f /\
    Forall (fun g => file_name g <> file_name f) before /\
    @next_file exn files (file_name f) = inr f'.
Proof.
  intros Hin.
  destruct (first_with_name files f Hin)
    as (before & f' & after & -> & Hname & Hbefore).
  exists before, f', after. repeat split; auto.
  rewrite <- Hname. apply next_file_first. rewrite Hname. exact Hbefore.
Qed.

(** When the uploaded files have different names, the lookup of the
    preview returns the file itself. *)
Theorem next_file_finds_own_file (files : list UploadedFile)
    (f : UploadedFile) :
  NoDup (map file_name files) -> In f files ->
  @next_file exn files (file_name f) = inr f.
Proof.
  unfold next_file. induction files as [| g files IH]; [contradiction |].
  cbn [map]. intros Hnd Hin. inversion Hnd as [| ? ? Hg Hrest]; subst.
  cbn [find]. destruct Hin as [-> | Hin].
  - rewrite String.eqb_refl. reflexivity.
  - destruct (String.eqb_spec (file_name g) (file_name f)) as [Heq | Hne].
    + exfalso. apply Hg. rewrite Heq. apply in_map. exact Hin.
    + apply IH; assumption.
Qed.




(** A run of the page raises in one case only: in the single mode, when
    the uploaded file cannot be opened; the exception of [Image.open] then
    leaves [main] before anything about the file is shown.  Every other
    run returns and ends with the rule and the footer. *)
Theorem main_raises_only_for_unreadable_single_upload (inp : Inputs)
    (evs : list (event exn Image)) :
  let returns :=
    exists body, main vw inp evs = (evs ++ body ++ [Rule; Footer], inr tt) in
  match
    (if String.eqb (radio inp) "Single Image" then single_upload inp
     else None)
  with
  | Some f =>
      match image_open vw (file_data f) with
      | inl e =>
          main vw inp evs =
            (evs ++ [PageConfig; Style; Title; Version; Radio; FileUploader],
             inl (LibraryError e))
      | inr _ => returns
      end
  | None => returns
  end.
Proof.
  cbv zeta. unfold main, setup_page, ui_bind, emit, library, call, ui_ret.
  destruct (String.eqb (radio inp) "Single Image").
  - destruct (single_upload inp) as [f |].
    + destruct (image_open vw (file_data f)) as [e | image].
      * rewrite <- !app_assoc. reflexivity.
      * destruct (button inp).
        -- match goal with
           | |- context [compress_single vw f image ?kb ?ts ?evs1] =>
               destruct (compress_single_returns vw f image kb ts evs1)
                 as (new & ->)
           end.
           exists ([PageConfig; Style; Title; Version; Radio; FileUploader;
                    Subheader "Original Image"; Picture image None;
                    Write (float_of_Z (file_size f) / 1024)%float; Button]
                   ++ new).
           rewrite <- !app_assoc. reflexivity.
        -- exists [PageConfig; Style; Title; Version; Radio; FileUploader;
                   Subheader "Original Image"; Picture image None;
                   Write (float_of_Z (file_size f) / 1024)%float; Button].
           rewrite <- !app_assoc. reflexivity.
    + exists [PageConfig; Style; Title; Version; Radio; FileUploader].
      rewrite <- !app_assoc. reflexivity.
  - destruct (multiple_upload inp) as [| f files].
    + exists [PageConfig; Style; Title; Version; Radio; FileUploader].
      rewrite <- !app_assoc. reflexivity.
    + destruct (button inp).
      * match goal with
        | |- context [compress_multiple vw ?fs ?ts ?evs1] =>
            destruct (compress_multiple_returns vw fs ts evs1) as (new & ->)
        end.
        exists ([PageConfig; Style; Title; Version; Radio; FileUploader;
                 Button] ++ new).
        rewrite <- !app_assoc. reflexivity.
      * exists [PageConfig; Style; Title; Version; Radio; FileUploader;
                Button].
        rewrite <- !app_assoc. reflexivity.
Qed.
End PageTheorems.

(** ** Runs of the page on concrete uploads *)

(** Two uploads: the results carry their names, in order. *)
Lemma compress_all_keeps_names_and_order_witness :
  Forall2 (fun f entry =>
             fst entry = file_name f /\
             exists image,
               image_open small_viewer (file_data f) = inr image /\
               snd (compress_image (pillow small_viewer) image (upload_kb f)
                      [])
               = inr (snd entry))
          [photo; scan] [("photo.png"%string, zeros 86);
                         ("scan.jpg"%string, zeros 41)].
Proof.
  eapply (compress_all_keeps_names_and_order small_viewer [photo; scan] []).
  vm_compute. reflexivity.
Defined.

(** Three uploads of which the second cannot be opened: the loop ends
    there, and the third is not touched. *)
Lemma compress_all_stops_at_first_failure_witness :
  exists done f rest out evs1,
    [photo; broken; scan] = done ++ f :: rest /\
    compress_all small_viewer done [] [] = (evs1, inr out) /\
    compress_all small_viewer [f] out evs1 =
      ([Encoded 52; Encoded 69; Encoded 77; Encoded 81;
        Encoded 83; Encoded 84; Encoded 85; Encoded 86],
       inl (LibraryError "cannot identify image file"%string)).
Proof.
  apply (compress_all_stops_at_first_failure small_viewer
           [photo; broken; scan] [] []).
  vm_compute. reflexivity.
Defined.

(** Two uploads with the same name: the lookup for the second returns the
    first. *)
Lemma next_file_finds_first_match_witness :
  exists before f' after,
    [photo; scan; retake] = before ++ f' :: after /\
    file_name f' = file_name retake /\
    Forall (fun g => file_name g <> file_name retake) before /\
    @next_file string [photo; scan; retake] (file_name retake) = inr f'.
Proof.
  apply (next_file_finds_first_match [photo; scan; retake] retake).
  cbn. auto.
Defined.

(** Uploads with different names: the lookup for the second returns it. *)
Lemma next_file_finds_own_file_witness :
  @next_file string [photo; scan] (file_name scan) = inr scan.
Proof.
  apply (next_file_finds_own_file [photo; scan] scan).
  - repeat constructor; cbn; intuition discriminate.
  - cbn. auto.
Defined.

